(** * Orion: evolutionary budget scheduling and the dimension transformers

    A shallow embedding of [orion/algo/evolution_es.py] and
    [orion/core/worker/transformer.py], with the properties of the design
    document stated over it.

    Conventions of the embedding.
    - Python exceptions are values of [exception]; a call that may raise
      returns a [result].
    - Python [int] is [Z].  Python and numpy floats are idealised as the
      rationals [Q]: rounding, overflow and NaN are outside the model.
    - A [while True] loop takes a fuel argument, the number of passes it
      may make, and ends in [OutOfFuel] when that does not suffice. *)

From Stdlib Require Import ZArith QArith Qround Qpower String List Lia Lqa.
From stdpp Require Import base gmap list strings.

(** * Python values *)

Module Py.

Inductive exception :=
| AssertionError
| IndexError
| KeyError
| TypeError
| ValueError
| OverflowError
| ZeroDivisionError
| RuntimeError (msg : string)
| Unmodelled.

Inductive result (A : Type) :=
| Ok (a : A)
| Raise (e : exception).
Arguments Ok {A} a.
Arguments Raise {A} e.

#[global] Instance result_ret : MRet result := fun A a => Ok a.
#[global] Instance result_bind : MBind result := fun A B f m =>
  match m with
  | Ok a => f a
  | Raise e => Raise e
  end.

(** The names that [Dimension.type], [domain_type] and [target_type]
    take. *)
Inductive type_name := real | integer | categorical | fidelity | invariant.

#[global] Instance type_name_eq_dec : EqDecision type_name.
Proof. solve_decision. Defined.

(** A Python number: an [int] or a [float]. *)
Inductive number :=
| PyInt (z : Z)
| PyFloat (q : Q).

Definition to_Q (n : number) : Q :=
  match n with
  | PyInt z => inject_Z z
  | PyFloat q => q
  end.

(** [a == b] on numbers compares values, whatever the two types. *)
Definition num_eqb (a b : number) : bool := Qeq_bool (to_Q a) (to_Q b).

(** [int(x)]: truncation toward zero. *)
Definition py_int (q : Q) : Z :=
  if Qle_bool 0 q then Qfloor q else Qceiling q.

(** [a / b], true division. *)
Definition py_div (a b : Q) : result Q :=
  if Qeq_bool b 0 then Raise ZeroDivisionError else Ok (a / b)%Q.

(** [range(lo, hi)]. *)
Definition py_range (lo hi : Z) : list Z := seqZ lo (hi - lo).

(** [for x in l: acc = body(acc, x)], stopping at the first exception. *)
Fixpoint for_each {A B : Type} (body : A -> B -> result A)
    (acc : A) (l : list B) : result A :=
  match l with
  | [] => Ok acc
  | x :: l' => acc' ← body acc x; for_each body acc' l'
  end.

(** [[f(x) for x in l]], stopping at the first exception. *)
Fixpoint for_list {A B : Type} (f : A -> result B) (l : list A)
    : result (list B) :=
  match l with
  | [] => Ok []
  | x :: l' => y ← f x; ys ← for_list f l'; mret (y :: ys)
  end.

End Py.

Import Py.

(** * [orion.algo.evolution_es]: the budget schedule *)

Module Budgets.

Local Open Scope Z_scope.

(** One schedule line: the [(n_trials, resource_budget)] pair of each rung. *)
Abbreviation rungs := (list (Z * Z)).

(** ** The bracket count

    [int(np.log(max_resources) / np.log(reduction_factor))] is the one
    place where [compute_budgets] leaves integer and rational arithmetic.
    The schedule is therefore defined over any function [log_quotient]
    returning that integer, and [exact_log_quotient] below is the instance
    that takes both logarithms exactly.  It is the count of the code
    except where the float64 quotient of the two rounded logarithms
    falls on the other side of an integer, which happens next to the
    exact powers of [reduction_factor] alone: for [max_resources = 1000]
    and [reduction_factor = 10] the code divides to
    [2.9999999999999996] and counts [2], this instance counts [3]. *)

(** How often [x] can be divided by [b] before it drops below [1]; for
    [1 < b] and [1 <= x] this is the integer part of [ln x / ln b]. *)
Fixpoint ilog (fuel : nat) (b x : Q) : Z :=
  match fuel with
  | O => 0
  | S fuel' => if Qle_bool b x then 1 + ilog fuel' b (x / b)%Q else 0
  end.

(** Fuel that [ilog] cannot exhaust: [b ^ k >= 1 + k * (b - 1)]. *)
Definition ilog_fuel (b x : Q) : nat :=
  S (Z.to_nat (Qceiling ((x - 1) / (b - 1))%Q)).

Definition exact_log_quotient (max_resources reduction_factor : number)
    : result Z :=
  let x := to_Q max_resources in
  let b := to_Q reduction_factor in
  if negb (Qle_bool 0 x) || negb (Qle_bool 0 b) then
    Raise ValueError                 (* log of a negative number is nan *)
  else if Qeq_bool x 0 then
    if Qeq_bool b 0 then Raise ValueError else Raise OverflowError
  else if Qeq_bool b 1 then
    if Qeq_bool x 1 then Raise ValueError else Raise OverflowError
  else if Qeq_bool b 0 then
    Ok 0                             (* finite / -inf *)
  else
    (* ln x / ln b = ln (1/x) / ln (1/b) *)
    let b' := if Qle_bool 1 b then b else (/ b)%Q in
    let x' := if Qle_bool 1 b then x else (/ x)%Q in
    if Qle_bool 1 x' then Ok (ilog (ilog_fuel b' x') b' x')
    else Ok (- ilog (ilog_fuel b' (/ x')%Q) b' (/ x')%Q).

Section ComputeBudgets.

Variable log_quotient : number -> number -> result Z.

(** Lines 41-44 and 68-71: the first resource level opens the schedule
    line with [nums_population], every later one is appended to
    [budgets_eves[0]] with [pairs * 2]. *)
Definition add_rung (first : bool) (nums_population pairs : Z)
    (budgets_eves : list rungs) (resource : Z) : result (list rungs) :=
  if first then
    Ok (budgets_eves ++ [[(nums_population, resource)]])
  else
    match budgets_eves with
    | [] => Raise IndexError
    | line :: others => Ok ((line ++ [(pairs * 2, resource)]) :: others)
    end.

(** Lines 50-65: the rungs of bracket [bracket_id].  The quotients and
    products are taken in the rationals, and they are those of the
    code, which works in float64, wherever every intermediate value is
    a float64: [100 / 4 ** 3 * 4 ** i] is, [61 / 3 ** 3 * 3 ** 3] is
    not, and comes to [60.99999999999999] in the code. *)
Definition bracket_budgets (num_brackets : Z) (max_resources rf : Q)
    (bracket_id : Z) : result rungs :=
  let num_trials :=
    py_int (inject_Z (Qceiling
      (inject_Z (py_int (inject_Z (num_brackets + 1)
                         / inject_Z (num_brackets - bracket_id + 1))%Q)
       * Qpower rf (num_brackets - bracket_id))%Q)) in
  min_resources ←
    py_div max_resources (Qpower rf (num_brackets - bracket_id));
  for_list
    (fun i =>
       n ← py_div (inject_Z num_trials) (Qpower rf i);
       let n_i := py_int n in
       let min_i := py_int (min_resources * Qpower rf i)%Q in
       mret (n_i, min_i))
    (py_range 0 (num_brackets - bracket_id + 1)).

Definition compute_budgets
    (min_resources max_resources reduction_factor : number)
    (nums_population pairs : Z) : result (list rungs) :=
  if num_eqb reduction_factor (PyInt 1) then
    match min_resources, max_resources with
    | PyInt lo, PyInt hi =>
        for_each
          (fun budgets_eves i =>
             add_rung (i =? lo) nums_population pairs budgets_eves i)
          [] (py_range lo (hi + 1))
    | _, _ => Raise TypeError      (* range() of a float *)
    end
  else
    num_brackets ← log_quotient max_resources reduction_factor;
    budgets ←
      for_list
        (bracket_budgets num_brackets
           (to_Q max_resources) (to_Q reduction_factor))
        (py_range 0 (num_brackets + 1));
    match budgets with
    | [] => Raise IndexError       (* budgets[0] *)
    | budgets_0 :: _ =>
        for_each
          (fun budgets_eves i =>
             match budgets_0 !! Z.to_nat i with
             | Some (_, resource) =>
                 add_rung (i =? 0) nums_population pairs
                   budgets_eves resource
             | None => Raise IndexError
             end)
          [] (py_range 0 (Z.of_nat (length budgets_0)))
    end.

End ComputeBudgets.

End Budgets.

(** * [orion.algo.evolution_es]: the evolutionary bracket *)

Module Bracket.

(** ** Objective values

    The performance array holds the objective of every slot, a float64,
    and starts at [np.inf].  [Infinity] is that sentinel; [NegInfinity]
    and [NaN] are the other two values that are not numbers. *)
Inductive objective :=
| Finite (q : Q)
| Infinity
| NegInfinity
| NaN.

(** [a < b]: false whenever one side is [nan]. *)
Definition obj_ltb (a b : objective) : bool :=
  match a, b with
  | NaN, _ | _, NaN => false
  | Finite x, Finite y => negb (Qle_bool y x)
  | NegInfinity, (Finite _ | Infinity) => true
  | Finite _, Infinity => true
  | _, _ => false
  end.

(** [a >= b]: false whenever one side is [nan]. *)
Definition obj_geb (a b : objective) : bool :=
  match a, b with
  | NaN, _ | _, NaN => false
  | Finite x, Finite y => Qle_bool y x
  | Infinity, _ => true
  | _, NegInfinity => true
  | _, _ => false
  end.

(** [a == b] *)
Definition obj_eqb (a b : objective) : bool :=
  match a, b with
  | Finite x, Finite y => Qeq_bool x y
  | Infinity, Infinity => true
  | NegInfinity, NegInfinity => true
  | _, _ => false
  end.

(** [a + b] *)
Definition obj_add (a b : objective) : objective :=
  match a, b with
  | NaN, _ | _, NaN => NaN
  | Finite x, Finite y => Finite (x + y)
  | Infinity, NegInfinity | NegInfinity, Infinity => NaN
  | Infinity, _ | _, Infinity => Infinity
  | NegInfinity, _ | _, NegInfinity => NegInfinity
  end.

(** [a / n] for a length [n]; the sum of no objective is the integer
    [0], and dividing it by the length [0] raises. *)
Definition obj_div (a : objective) (n : nat) : result objective :=
  match n with
  | O => Raise ZeroDivisionError
  | S _ =>
      match a with
      | Finite x => Ok (Finite (x / inject_Z (Z.of_nat n)))
      | other => Ok other
      end
  end.

(** ** Arrays and dictionaries *)

Definition array_get {A : Type} (a : list A) (i : nat) : result A :=
  match a !! i with
  | Some x => Ok x
  | None => Raise IndexError
  end.

Definition array_set {A : Type} (a : list A) (i : nat) (x : A)
    : result (list A) :=
  if decide (i < length a)%nat then Ok (<[i:=x]> a) else Raise IndexError.

Definition dict_get {A : Type} (d : gmap nat A) (k : nat) : result A :=
  match d !! k with
  | Some x => Ok x
  | None => Raise KeyError
  end.

(** ** The random generator

    The generator state is the sequence of raw draws still to come; a
    draw on an exhausted sequence yields [0]. *)
Abbreviation rng := (list nat).

(** [k] draws without replacement, in the order drawn. *)
Fixpoint draw (k : nat) (pool : list nat) (g : rng) : list nat * rng :=
  match k with
  | O => ([], g)
  | S k' =>
      let i := (hd O g mod length pool)%nat in
      match pool !! i with
      | Some x =>
          let '(xs, g') := draw k' (delete i pool) (tl g) in (x :: xs, g')
      | None => ([], g)
      end
  end.

(** [np.random.choice(pool, k, replace=False)] *)
Definition np_random_choice (pool : list nat) (k : nat) (g : rng)
    : result (list nat * rng) :=
  if decide (k <= length pool)%nat then Ok (draw k pool g)
  else Raise ValueError.

(** ** The algorithm object and its bracket *)

(** What [BracketEVES] reads and never writes. *)
Record config := {
  nums_population : nat;
  nums_comp_pairs : nat;
  fidelity_index : nat;
  space : list type_name;            (* [space.values()], by type *)
  multiply_factor : Q;
  add_factor : Q;
}.

(** What [get_candidates] updates: the arrays of the algorithm object,
    the random generator and the warnings logged so far. *)
Record store := {
  population : gmap nat (list Q);
  performance : list objective;
  hurdles : list objective;
  random : rng;
  warnings : nat;
}.

Definition set_population (p : gmap nat (list Q)) (s : store) : store :=
  {| population := p; performance := performance s; hurdles := hurdles s;
     random := random s; warnings := warnings s |}.

Definition set_performance (p : list objective) (s : store) : store :=
  {| population := population s; performance := p; hurdles := hurdles s;
     random := random s; warnings := warnings s |}.

Definition set_random (g : rng) (s : store) : store :=
  {| population := population s; performance := performance s;
     hurdles := hurdles s; random := g; warnings := warnings s |}.

Definition append_hurdle (h : objective) (s : store) : store :=
  {| population := population s; performance := performance s;
     hurdles := hurdles s ++ [h]; random := random s;
     warnings := warnings s |}.

Definition log_warning (s : store) : store :=
  {| population := population s; performance := performance s;
     hurdles := hurdles s; random := random s; warnings := S (warnings s) |}.

(** Lines 167-169. *)
Definition search_space_remove_fidelity (c : config) : list nat :=
  filter (fun i => i ≠ fidelity_index c) (seq 0 (length (space c))).

(** One entry of [rung.values()]: the objective and the full point. *)
Abbreviation trial := (objective * list Q)%type.

(** [population[key][i] = value] *)
Definition population_set (key i : nat) (value : Q)
    (p : gmap nat (list Q)) : result (gmap nat (list Q)) :=
  column ← dict_get p key;
  column' ← array_set column i value;
  mret (<[key := column']> p).

(** Lines 250-253. *)
Definition copy_winner (c : config) (winner_id loser_id : nat)
    (p : gmap nat (list Q)) : result (gmap nat (list Q)) :=
  for_each
    (fun p key =>
       column ← dict_get p key;
       value ← array_get column winner_id;
       population_set key loser_id value p)
    p (search_space_remove_fidelity c).

(** [tuple(point) == other] *)
Fixpoint point_eqb (point other : list Q) : bool :=
  match point, other with
  | [], [] => true
  | x :: point', y :: other' => Qeq_bool x y && point_eqb point' other'
  | _, _ => false
  end.

(** [points.index(tuple(point))]; [tuple(point) in points] holds exactly
    when there is such an index. *)
Fixpoint index_of (point : list Q) (points : list (list Q)) : option nat :=
  match points with
  | [] => None
  | other :: points' =>
      if point_eqb point other then Some O
      else S <$> index_of point points'
  end.

(** How a run of a loop with fuel ends. *)
Inductive outcome (A : Type) :=
| Return (a : A)
| Throw (e : exception)
| OutOfFuel.
Arguments Return {A} a.
Arguments Throw {A} e.
Arguments OutOfFuel {A}.

#[global] Instance outcome_ret : MRet outcome := fun A a => Return a.
#[global] Instance outcome_bind : MBind outcome := fun A B f m =>
  match m with
  | Return a => f a
  | Throw e => Throw e
  | OutOfFuel => OutOfFuel
  end.

Definition lift {A : Type} (r : result A) : outcome A :=
  match r with
  | Ok a => Return a
  | Raise e => Throw e
  end.

Fixpoint for_each_outcome {A B : Type} (body : A -> B -> outcome A)
    (acc : A) (l : list B) : outcome A :=
  match l with
  | [] => Return acc
  | x :: l' => acc' ← body acc x; for_each_outcome body acc' l'
  end.

(** One pass through the body of [while True]. *)
Inductive iteration :=
| Break (point : list Q) (s : store)
| Continue (point : list Q) (nums_all_equal : nat) (s : store).

Section GetCandidates.

(** The mutation function named by [mutate_attr["function"]].  It is
    handed the bracket, and by contract reads the population, writes
    population slots and draws random numbers. *)
Variable mutate_func :
  config -> gmap nat (list Q) -> rng -> nat -> nat -> Q -> Q ->
  result (gmap nat (list Q) * rng).

(** Lines 245-248. *)
Definition _mutate (c : config) (winner_id loser_id : nat) (s : store)
    : result store :=
  '(p, g) ← mutate_func c (population s) (random s) winner_id loser_id
              (multiply_factor c) (add_factor c);
  mret (set_random g (set_population p s)).

(** Lines 178-180. *)
Definition population_range (c : config) (rung : list trial) : nat :=
  if decide (nums_population c < length rung)%nat
  then nums_population c else length rung.

(** Lines 182-185. *)
Definition load_rung (c : config) (rung : list trial) (s : store)
    : result store :=
  for_each
    (fun s i =>
       t ← array_get rung i;
       p ← for_each
             (fun p j => value ← array_get t.2 j; population_set j i value p)
             (population s) (search_space_remove_fidelity c);
       perf ← array_set (performance s) i t.1;
       mret (set_performance perf (set_population p s)))
    s (seq 0 (population_range c rung)).

(** Lines 187-190. *)
Definition select_teams (c : config) (g : rng)
    : result (list nat * list nat * rng) :=
  let population_index := seq 0 (nums_population c) in
  '(red_team, g) ←
    np_random_choice population_index (nums_comp_pairs c) g;
  let diff_list := list_difference population_index red_team in
  '(blue_team, g) ← np_random_choice diff_list (nums_comp_pairs c) g;
  mret (red_team, blue_team, g).

(** What the tournament loop accumulates. *)
Record pairing := {
  winner_list : list nat;
  loser_list : list nat;
  hurdle : objective;
  after : store;
}.

(** Lines 197-207, for one [i]. *)
Definition compete (c : config) (red_team blue_team : list nat)
    (acc : pairing) (i : nat) : result pairing :=
  let perf := performance (after acc) in
  red ← array_get red_team i;
  red_perf ← array_get perf red;
  blue ← array_get blue_team i;
  blue_perf ← array_get perf blue;
  let winner := if obj_ltb red_perf blue_perf then red_team else blue_team in
  let loser := if obj_geb red_perf blue_perf then red_team else blue_team in
  winner_i ← array_get winner i;
  loser_i ← array_get loser i;
  winner_perf ← array_get perf winner_i;
  s ← _mutate c winner_i loser_i (after acc);
  mret {| winner_list := winner_list acc ++ [winner_i];
          loser_list := loser_list acc ++ [loser_i];
          hurdle := obj_add (hurdle acc) winner_perf;
          after := s |}.

(** Lines 187-207: the teams are drawn and every pair competes. *)
Definition tournament (c : config) (s : store)
    : result (list nat * list nat * pairing) :=
  '(red_team, blue_team, g) ← select_teams c (random s);
  round ← for_each (compete c red_team blue_team)
            {| winner_list := []; loser_list := [];
               hurdle := Finite 0; after := set_random g s |}
            (seq 0 (length red_team));
  mret (red_team, blue_team, round).

(** Lines 219-227. *)
Definition fill_point (c : config) (rung : list trial) (i : nat)
    (s : store) (point : list Q) : result (list Q) :=
  t ← array_get rung i;
  fidelity_value ← array_get t.2 (fidelity_index c);
  point ← array_set point (fidelity_index c) fidelity_value;
  for_each
    (fun point j =>
       type ← array_get (space c) j;
       column ← dict_get (population s) j;
       value ← array_get column i;
       match type with
       | integer | categorical => array_set point j (inject_Z (py_int value))
       | _ => array_set point j value
       end)
    point (search_space_remove_fidelity c).

(** Lines 219-237. *)
Definition retry_body (c : config) (rung : list trial) (i : nat)
    (points : list (list Q)) (point : list Q) (nums_all_equal : nat)
    (s : store) : result iteration :=
  point ← fill_point c rung i s point;
  match index_of point points with
  | Some k =>
      let nums_all_equal := S nums_all_equal in
      s ← _mutate c k i s;
      if decide (10 < nums_all_equal)%nat
      then mret (Continue point nums_all_equal (log_warning s))
      else mret (Continue point nums_all_equal s)
  | None => mret (Break point s)
  end.

(** Lines 218-237. *)
Fixpoint while_true (fuel : nat) (c : config) (rung : list trial)
    (i : nat) (points : list (list Q)) (point : list Q)
    (nums_all_equal : nat) (s : store) : outcome (list Q * store) :=
  match fuel with
  | O => OutOfFuel
  | S fuel' =>
      match retry_body c rung i points point nums_all_equal s with
      | Raise e => Throw e
      | Ok (Break point s) => Return (point, s)
      | Ok (Continue point nums_all_equal s) =>
          while_true fuel' c rung i points point nums_all_equal s
      end
  end.

(** Lines 214-239. *)
Definition build_points (fuel : nat) (c : config) (rung : list trial)
    (s : store) : outcome (list (list Q) * store) :=
  for_each_outcome
    (fun '(points, s) i =>
       let point := replicate (length (space c)) 0%Q in
       '(point, s) ← while_true fuel c rung i points point 0 s;
       mret (points ++ [point], s))
    ([], s) (seq 0 (population_range c rung)).

(** Lines 171-243.  [next_rung_filled] is
    [self.has_rung_filled(rung_id + 1)] and [rung] is
    [list(self.rungs[rung_id]['results'].values())], both kept by the
    [Bracket] base class. *)
Definition get_candidates (fuel : nat) (c : config)
    (next_rung_filled : bool) (rung : list trial) (s : store)
    : outcome (list (list Q) * store) :=
  if next_rung_filled then Return ([], s)
  else
    s ← lift (load_rung c rung s);
    '(red_team, _, round) ← lift (tournament c s);
    hurdles ← lift (obj_div (hurdle round) (length red_team));
    build_points fuel c rung (append_hurdle hurdles (after round)).

End GetCandidates.

(** A mutation function that does nothing but [bracket.copy_winner]. *)
Definition copy_mutate (c : config) (p : gmap nat (list Q)) (g : rng)
    (winner_id loser_id : nat) (_ _ : Q)
    : result (gmap nat (list Q) * rng) :=
  p ← copy_winner c winner_id loser_id p; mret (p, g).

(** The state of the loop after [k] more passes, for as long as it
    does not leave. *)
Fixpoint passes (k : nat) (c : config) (rung : list trial) (i : nat)
    (points : list (list Q)) (point : list Q) (nums_all_equal : nat)
    (s : store) : result iteration :=
  match k with
  | O => Ok (Continue point nums_all_equal s)
  | S k' =>
      match retry_body copy_mutate c rung i points point nums_all_equal s with
      | Ok (Continue point nums_all_equal s) =>
          passes k' c rung i points point nums_all_equal s
      | stop => stop
      end
  end.

(** ** A population of two

    One real dimension and the fidelity, a population of two, and a rung
    holding the two results [(0.5, (1, 1))] and [(0.7, (2, 1))]; the
    arrays are as [EvolutionES.__init__] leaves them and the generator is
    in any state [g]. *)
Definition two_config : config :=
  {| nums_population := 2; nums_comp_pairs := 1; fidelity_index := 1;
     space := [real; fidelity]; multiply_factor := 3; add_factor := 1 |}.

Definition two_rung : list trial :=
  [(Finite (1 # 2), [1; 1]%Q); (Finite (7 # 10), [2; 1]%Q)].

Definition two_store (g : rng) : store :=
  {| population := {[ O := [-1; -1]%Q ]};
     performance := [Infinity; Infinity];
     hurdles := []; random := g; warnings := 0 |}.

(** The objective that a pair adds to the hurdle: the red one where it
    is strictly lower, the blue one otherwise (lines 197-199 and 206). *)
Definition lower_objective (perf : list objective) (red blue : nat)
    : objective :=
  match perf !! red, perf !! blue with
  | Some red_perf, Some blue_perf =>
      if obj_ltb red_perf blue_perf then red_perf else blue_perf
  | _, _ => NaN
  end.

(** ** A population of six

    One real dimension and the fidelity, a population of six in three
    pairs, loaded with six results; with the generator exhausted the red
    team is drawn as slots [0, 1, 2] and the blue team as [3, 4, 5], so
    that the pairs meet the objectives [3] and [2], [1] and [2], [5] and
    [5]. *)
Definition six_config : config :=
  {| nums_population := 6; nums_comp_pairs := 3; fidelity_index := 1;
     space := [real; fidelity]; multiply_factor := 3; add_factor := 1 |}.

Definition six_store : store :=
  {| population := {[ O := [10; 11; 12; 13; 14; 15]%Q ]};
     performance :=
       [Finite 3; Finite 1; Finite 5; Finite 2; Finite 2; Finite 5];
     hurdles := []; random := []; warnings := 0 |}.

(** ** Predicates of the specification *)

(** Pair [i] has been decided as lines 197-202 decide it. *)
Definition decided (red_team blue_team : list nat) (perf : list objective)
    (winners losers : list nat) (i : nat) : Prop :=
  exists red blue red_perf blue_perf,
    red_team !! i = Some red
    /\ blue_team !! i = Some blue
    /\ perf !! red = Some red_perf
    /\ perf !! blue = Some blue_perf
    /\ winners !! i = Some (if obj_ltb red_perf blue_perf then red else blue)
    /\ losers !! i = Some (if obj_geb red_perf blue_perf then red else blue).

(** The point under construction: its fidelity slot holds the fidelity
    value of rung entry [i]. *)
Definition carries_fidelity (c : config) (rung : list trial) (i : nat)
    (point : list Q) : Prop :=
  exists (t : trial) (v : Q),
    rung !! i = Some t
    /\ t.2 !! fidelity_index c = Some v
    /\ point !! fidelity_index c = Some v.

(** A mutation function that changes nothing. *)
Definition keep (_ : config) (p : gmap nat (list Q)) (g : rng)
    (_ _ : nat) (_ _ : Q) : result (gmap nat (list Q) * rng) :=
  Ok (p, g).

(** The population of [two_config] once the loser has been given the
    winner's value. *)
Definition two_equal : gmap nat (list Q) := {[ O := [1; 1]%Q ]}.

(** ** [EvolutionES.__init__] and [BracketEVES.__init__] *)

(** Lines 110-111. *)
Definition nums_mutate_gene (space : list type_name) : Z :=
  let genes :=
    py_int (inject_Z (Z.of_nat (length space) - 1) * (3 # 10)) in
  if decide (0 < genes)%Z then genes else 1%Z.

(** Lines 115-118. *)
Definition init_population (space_len fidelity_index nums_population : nat)
    : gmap nat (list Q) :=
  foldl
    (fun population key =>
       if decide (key = fidelity_index) then population
       else <[key := replicate nums_population (-1)%Q]> population)
    ∅ (seq 0 space_len).

(** Lines 100-129 and 150-169: the configuration and the arrays that
    the two constructors set up.  [fidelity_index] comes from the
    [Hyperband] constructor; [mutate] holds the two factors of a given
    [mutate] dictionary, and [seed] is the generator as [seed_rng]
    leaves it. *)
Definition EvolutionES_init (space : list type_name)
    (fidelity_index nums_population : nat) (mutate : option (Q * Q))
    (seed : rng) : config * store :=
  let pair := (nums_population / 2)%nat in
  ({| nums_population := nums_population;
      nums_comp_pairs := pair;
      fidelity_index := fidelity_index;
      space := space;
      multiply_factor := match mutate with Some (m, _) => m | None => 3 end;
      add_factor := match mutate with Some (_, a) => a | None => 1 end |},
   {| population :=
        init_population (length space) fidelity_index nums_population;
      performance := replicate nums_population Infinity;
      hurdles := [];
      random := seed;
      warnings := 0 |}).

(** ** Shapes *)

(** Every non-fidelity dimension has its column of [nums_population]
    slots. *)
Definition shaped (c : config) (p : gmap nat (list Q)) : Prop :=
  forall j, j ∈ search_space_remove_fidelity c ->
    exists column, p !! j = Some column
                   /\ length column = nums_population c.

Definition well_formed (c : config) (s : store) : Prop :=
  shaped c (population s)
  /\ length (performance s) = nums_population c.

(** A mutation function that, given slots of the population, returns
    and keeps the columns in shape. *)
Definition shape_preserving
    (mutate_func :
       config -> gmap nat (list Q) -> rng -> nat -> nat -> Q -> Q ->
       result (gmap nat (list Q) * rng)) : Prop :=
  forall c p g winner_id loser_id mf af,
    shaped c p ->
    (winner_id < nums_population c)%nat ->
    (loser_id < nums_population c)%nat ->
    exists p' g',
      mutate_func c p g winner_id loser_id mf af = Ok (p', g')
      /\ shaped c p'.

(** No point equals, as a tuple, a point before it. *)
Definition distinct (points : list (list Q)) : Prop :=
  forall (i j : nat) (earlier later : list Q),
    (i < j)%nat ->
    points !! i = Some earlier ->
    points !! j = Some later ->
    point_eqb later earlier = false.



(** What a mutation leaves alone: the shape of the arrays, the
    performance and the hurdles. *)
Definition same_records (c : config) (s s' : store) : Prop :=
  well_formed c s'
  /\ performance s' = performance s
  /\ hurdles s' = hurdles s.

(** Lines 131-133.  Lines 125-128 build one bracket for each line of the
    schedule, and a bracket is identified here with the line it is built
    from. *)
Definition _get_bracket (brackets : list (list (Z * Z))) (point : list Q)
    : result (list (Z * Z)) :=
  array_get brackets 0.

End Bracket.

(** * [orion.core.worker.transformer] *)

Module Transformer.

Local Open Scope Z_scope.

(** ** Points

    The dimensions considered are scalar (shape [()]).  A point is then a
    category, an integer or a real, and on the far side of a one-hot
    encoding a one-dimensional array of reals.  numpy broadcasts every
    transformer over arrays of any shape; of those only the one-hot code
    is modelled, and [Raise Unmodelled] marks an outcome that the model
    does not describe. *)
Inductive point :=
| Cat (c : string)
| Int (z : Z)
| Real (q : Q)
| Vec (v : list Q).

(** ** The transformers *)

Inductive transformer :=
| Identity (domain_type : option type_name)
| Compose (apply composition : transformer)
| Reverse (transformer : transformer)
| Quantize
| Enumerate (categories : list string)
| OneHotEncode (num_cats : Z).

Fixpoint domain_type (t : transformer) : option type_name :=
  match t with
  | Identity domain => domain
  | Compose _ composition => domain_type composition
  | Reverse t' => target_type t'
  | Quantize => Some real
  | Enumerate _ => Some categorical
  | OneHotEncode _ => Some integer
  end
with target_type (t : transformer) : option type_name :=
  match t with
  | Identity domain => domain
  | Compose apply composition =>
      match target_type apply with
      | Some type_after => Some type_after
      | None => target_type composition
      end
  | Reverse t' => domain_type t'
  | Quantize => Some integer
  | Enumerate _ => Some integer
  | OneHotEncode _ => Some real
  end.

(** [Reverse.__init__] *)
Definition Reverse_init (t : transformer) : result transformer :=
  match t with
  | OneHotEncode _ => Raise AssertionError
  | _ => Ok (Reverse t)
  end.

(** The assertion that closes [Compose.__init__]. *)
Definition Compose_check (apply composition : transformer)
    : result transformer :=
  match domain_type apply with
  | None => Ok (Compose apply composition)
  | Some domain =>
      if decide (target_type composition = Some domain)
      then Ok (Compose apply composition)
      else Raise AssertionError
  end.

(** [Compose.__init__], on the list read from its end: [transformers.pop()]
    takes the last transformer, and the rest is composed recursively. *)
Fixpoint Compose_pop (reversed : list transformer)
    (base_domain_type : option type_name) : result transformer :=
  match reversed with
  | [] => Compose_check (Identity None) (Identity base_domain_type)
  | apply :: rest =>
      composition ←
        match rest with
        | [] => Ok (Identity base_domain_type)
        | _ :: _ => Compose_pop rest base_domain_type
        end;
      Compose_check apply composition
  end.

Definition Compose_init (transformers : list transformer)
    (base_domain_type : option type_name) : result transformer :=
  Compose_pop (rev transformers) base_domain_type.

(** [{cat: i for i, cat in enumerate(categories)}], from index [i] on: a
    category that occurs twice keeps its last index. *)
Fixpoint map_dict_from (i : nat) (categories : list string)
    (d : gmap string nat) : gmap string nat :=
  match categories with
  | [] => d
  | cat :: rest => map_dict_from (S i) rest (<[cat := i]> d)
  end.

Definition map_dict (categories : list string) : gmap string nat :=
  map_dict_from 0 categories ∅.

(** [l[z]] for a list: a negative index counts from the end. *)
Definition list_item {A : Type} (l : list A) (z : Z) : result A :=
  let i := if decide (0 <= z) then z else Z.of_nat (length l) + z in
  if decide (0 <= i)
  then match l !! Z.to_nat i with
       | Some x => Ok x
       | None => Raise IndexError
       end
  else Raise IndexError.

(** The one-hot row of width [n] for index [z]. *)
Definition one_hot (n z : Z) : list Q :=
  <[Z.to_nat z := 1%Q]> (replicate (Z.to_nat n) 0%Q).

(** [argmax]: the first position of the largest entry. *)
Fixpoint argmax_from (best_at : nat) (best : Q) (i : nat) (v : list Q)
    : nat :=
  match v with
  | [] => best_at
  | x :: v' =>
      if Qle_bool x best then argmax_from best_at best (S i) v'
      else argmax_from i x (S i) v'
  end.

Definition argmax (v : list Q) : result Z :=
  match v with
  | [] => Raise ValueError
  | x :: v' => Ok (Z.of_nat (argmax_from 0 x 1 v'))
  end.

Definition is_whole (q : Q) : bool := Qeq_bool (inject_Z (Qfloor q)) q.

(** ** float64 and int64

    numpy keeps a real as a float64 and an integer as an int64.  A real
    point [Real q] stands for the float64 of value [q]. *)

(** The float64 nearest to an integer: [53] significant bits are kept,
    and of two nearest values the one with the even last bit. *)
Definition float64_of_Z (z : Z) : Z :=
  let a := Z.abs z in
  let e := Z.log2 a - 52 in
  if decide (e <= 0) then z
  else
    let q := a / 2 ^ e in
    let r := a mod 2 ^ e in
    let half := 2 ^ (e - 1) in
    let q' :=
      if decide (r < half) then q
      else if decide (half < r) then q + 1
      else if Z.even q then q else q + 1 in
    Z.sgn z * (q' * 2 ^ e).

(** [astype(int)] of a float64 that holds the integer [f]: [f] itself
    inside the int64 range; outside it the conversion answers the least
    int64, as the processor instruction does on x86-64. *)
Definition int64_of_float (f : Z) : Z :=
  if decide (- 2 ^ 63 <= f < 2 ^ 63) then f else - 2 ^ 63.

(** Lines 207-208.  A Python integer outside the int64 range makes an
    array of objects, which the model does not describe. *)
Definition Quantize_transform (p : point) : result point :=
  match p with
  | Real q => Ok (Int (int64_of_float (Qfloor q)))
  | Int z =>
      if decide (- 2 ^ 63 <= z < 2 ^ 63)
      then Ok (Int (int64_of_float (float64_of_Z z)))
      else Raise Unmodelled
  | Cat _ => Raise TypeError
  | Vec _ => Raise Unmodelled
  end.

(** Lines 210-211. *)
Definition Quantize_reverse (p : point) : result point :=
  match p with
  | Int z =>
      if decide (- 2 ^ 63 <= z < 2 ^ 63)
      then Ok (Real (inject_Z (float64_of_Z z)))
      else Raise Unmodelled
  | Real q => Ok (Real q)
  | Cat _ => Raise Unmodelled
  | Vec v => Ok (Vec v)
  end.

Definition Enumerate_transform (categories : list string) (p : point)
    : result point :=
  match p with
  | Cat c =>
      match map_dict categories !! c with
      | Some i => Ok (Int (Z.of_nat i))
      | None => Raise KeyError
      end
  | Int _ | Real _ => Raise KeyError
  | Vec _ => Raise Unmodelled
  end.

Definition Enumerate_reverse (categories : list string) (p : point)
    : result point :=
  match p with
  | Int z => c ← list_item categories z; mret (Cat c)
  | Cat _ | Real _ => Raise TypeError
  | Vec _ => Raise Unmodelled
  end.

Definition OneHotEncode_transform (num_cats : Z) (p : point)
    : result point :=
  match p with
  | Int z =>
      if decide (z < num_cats ∧ 0 <= z) then
        if decide (num_cats <= 2) then Ok (Real (inject_Z z))
        else Ok (Vec (one_hot num_cats z))
      else Raise AssertionError
  | Real q =>
      if negb (Qle_bool (inject_Z num_cats) q) && Qle_bool 0 q && is_whole q
      then
        if decide (num_cats <= 2) then Ok (Real q)
        else Raise IndexError        (* a float used as an index *)
      else Raise AssertionError
  | Cat _ => Raise TypeError
  | Vec _ => Raise Unmodelled
  end.

Definition OneHotEncode_reverse (num_cats : Z) (p : point)
    : result point :=
  if decide (num_cats = 2) then
    match p with
    | Real q => Ok (Int (if Qle_bool q (1 # 2) then 0 else 1))
    | Int z => Ok (Int (if decide (z <= 0) then 0 else 1))
    | Cat _ => Raise TypeError
    | Vec _ => Raise Unmodelled
    end
  else if decide (num_cats = 1) then
    match p with
    | Vec _ => Raise Unmodelled
    | _ => Ok (Int 0)
    end
  else
    match p with
    | Vec v =>
        if decide (Z.of_nat (length v) = num_cats)
        then i ← argmax v; mret (Int i)
        else Raise AssertionError
    | _ => Raise IndexError          (* [shape[-1]] of a scalar *)
    end.

Fixpoint transform (t : transformer) (p : point) : result point :=
  match t with
  | Identity _ => Ok p
  | Compose apply composition =>
      p' ← transform composition p; transform apply p'
  | Reverse t' => reverse t' p
  | Quantize => Quantize_transform p
  | Enumerate categories => Enumerate_transform categories p
  | OneHotEncode num_cats => OneHotEncode_transform num_cats p
  end
with reverse (t : transformer) (p : point) : result point :=
  match t with
  | Identity _ => Ok p
  | Compose apply composition =>
      p' ← reverse apply p; reverse composition p'
  | Reverse t' => transform t' p
  | Quantize => Quantize_reverse p
  | Enumerate categories => Enumerate_reverse categories p
  | OneHotEncode num_cats => OneHotEncode_reverse num_cats p
  end.

(** ** Dimensions *)

(** Modelled from the spec: the [Dimension] of [orion.algo.space], which
    this module only consumes.  A dimension has a unique [name], a [type],
    for a categorical dimension its list of [categories], interval bounds
    and a containment check.  [interval] is undefined on a categorical
    dimension: the call raises a [RuntimeError] whose message mentions
    "Categories". *)
Record Dimension := {
  name : string;
  type : type_name;
  categories : list string;
  interval : Q -> result (point * point);
  contains : point -> bool;
}.

(** ["needle" in hay] *)
Fixpoint str_in (needle hay : string) : bool :=
  String.prefix needle hay ||
  match hay with
  | EmptyString => false
  | String _ hay' => str_in needle hay'
  end.

Module TransformedDimension.

Record t := {
  transformer : Transformer.transformer;
  original_dimension : Dimension;
}.

Definition transform (self : t) (p : point) : result point :=
  Transformer.transform (transformer self) p.

Definition reverse (self : t) (p : point) : result point :=
  Transformer.reverse (transformer self) p.

(** Lines 287-295. *)
Definition interval (self : t) (alpha : Q) : result (point * point) :=
  match Transformer.interval (original_dimension self) alpha with
  | Ok (low, high) =>
      low' ← transform self low;
      high' ← transform self high;
      mret (low', high')
  | Raise (RuntimeError msg) =>
      if str_in "Categories" msg
      then Ok (Real (-1 # 10), Real (11 # 10))
      else Raise (RuntimeError msg)
  | Raise e => Raise e
  end.

(** Lines 297-305, [__contains__]. *)
Definition contains (self : t) (p : point) : result bool :=
  match reverse self p with
  | Ok orig_point =>
      Ok (Transformer.contains (original_dimension self) orig_point)
  | Raise AssertionError => Ok false
  | Raise e => Raise e
  end.

(** Lines 311-314. *)
Definition name (self : t) : string :=
  Transformer.name (original_dimension self).

End TransformedDimension.

(** ** Building the transformed space *)

(** Modelled from the spec: [Space.register], which keeps the dimensions
    in order and enforces that names are unique. *)
Definition register (space : list TransformedDimension.t)
    (dim : TransformedDimension.t) : result (list TransformedDimension.t) :=
  if decide (TransformedDimension.name dim
             ∈ TransformedDimension.name <$> space)
  then Raise ValueError
  else Ok (space ++ [dim]).

(** Lines 52-74: one requirement, for the dimension [dim]. *)
Definition requirement_step (dim : Dimension)
    (acc : list transformer * option type_name)
    (requirement : option type_name)
    : result (list transformer * option type_name) :=
  let '(transformers, type_) := acc in
  transformers ←
    match type_, requirement with
    | Some real, (Some real | None) => Ok transformers
    | Some real, Some integer => Ok (transformers ++ [Quantize])
    | Some integer, (Some integer | None) => Ok transformers
    | Some integer, Some real =>
        r ← Reverse_init Quantize; mret (transformers ++ [r])
    | Some categorical, Some real =>
        Ok (transformers ++
            [Enumerate (categories dim);
             OneHotEncode (Z.of_nat (length (categories dim)))])
    | Some categorical, Some integer =>
        Ok (transformers ++ [Enumerate (categories dim)])
    | Some categorical, None => Ok transformers
    | _, _ => Raise TypeError
    end;
  match last transformers with
  | Some t =>
      let last_type := target_type t in
      if decide (last_type = Some invariant)
      then mret (transformers, type_)
      else mret (transformers, last_type)
  | None => mret (transformers, type_)
  end.

(** Lines 47-76: the body of the loop over [original_space.values()]. *)
Definition wrap_dimension (requirements : list (option type_name))
    (dim : Dimension) : result TransformedDimension.t :=
  let base_domain_type := Some (type dim) in
  '(transformers, _) ←
    for_each (requirement_step dim) ([], base_domain_type) requirements;
  composed ← Compose_init transformers base_domain_type;
  mret {| TransformedDimension.transformer := composed;
          TransformedDimension.original_dimension := dim |}.

(** Lines 45-77.  [requirements] is the list made at line 45, and
    [original_space] is [original_space.values()]. *)
Definition build_required_space (requirements : list (option type_name))
    (original_space : list Dimension)
    : result (list TransformedDimension.t) :=
  for_each
    (fun space dim =>
       wrapped ← wrap_dimension requirements dim;
       register space wrapped)
    [] original_space.


(** Modelled from the spec: what [Dimension.interval] answers.  It is
    undefined on a categorical dimension, where the call raises a
    [RuntimeError] that mentions "Categories", and defined on every other
    dimension. *)
Definition interval_as_specified (dim : Dimension) : Prop :=
  forall alpha : Q,
    if decide (type dim = categorical)
    then exists msg, interval dim alpha = Raise (RuntimeError msg)
                     /\ str_in "Categories" msg = true
    else exists low high, interval dim alpha = Ok (low, high).

(** ** Two dimensions *)

Definition colour : Dimension :=
  {| name := "colour";
     type := categorical;
     categories := ["red"; "green"; "blue"];
     interval := fun _ =>
       Raise (RuntimeError
                "Categories have no ``interval`` (as they are not ordered).");
     contains := fun p =>
       match p with
       | Cat c => bool_decide (c ∈ ["red"; "green"; "blue"])
       | _ => false
       end |}.

Definition rate : Dimension :=
  {| name := "rate";
     type := real;
     categories := [];
     interval := fun _ => Ok (Real 0, Real 1);
     contains := fun p =>
       match p with
       | Real q => Qle_bool 0 q && Qle_bool q 1
       | _ => false
       end |}.

(** ** What a wrapped dimension reports *)

(** Lines 103-105, 158-160 and 266-267, on a shape as the list of its
    extents.  [Identity], [Reverse], [Quantize] and [Enumerate] inherit
    the method of the base class. *)
Fixpoint infer_target_shape (t : transformer) (shape : list Z) : list Z :=
  match t with
  | Compose apply composition =>
      infer_target_shape apply (infer_target_shape composition shape)
  | OneHotEncode num_cats =>
      if decide (2 < num_cats) then shape ++ [num_cats] else shape
  | _ => shape
  end.

(** Lines 316-320, the [type] property. *)
Definition TransformedDimension_type (self : TransformedDimension.t)
    : option type_name :=
  let type_ := target_type (TransformedDimension.transformer self) in
  if decide (type_ = Some invariant)
  then Some (type (TransformedDimension.original_dimension self))
  else type_.

(** Lines 322-325, the [shape] property, for an original dimension of
    shape [shape]. *)
Definition TransformedDimension_shape (self : TransformedDimension.t)
    (shape : list Z) : list Z :=
  infer_target_shape (TransformedDimension.transformer self) shape.

(** The shape of a point: [()] for a scalar. *)
Definition point_shape (p : point) : list Z :=
  match p with
  | Vec v => [Z.of_nat (length v)]
  | _ => []
  end.

Module TransformedSpace.

(** Lines 339-341; [self] is [self.values()]. *)
Definition transform (self : list TransformedDimension.t)
    (point : list Transformer.point) : result (list Transformer.point) :=
  for_list
    (fun '(i, dim) =>
       p ← list_item point (Z.of_nat i);
       TransformedDimension.transform dim p)
    (imap pair self).

(** Lines 343-347. *)
Definition reverse (self : list TransformedDimension.t)
    (transformed_point : list point) : result (list point) :=
  for_list
    (fun '(i, dim) =>
       p ← list_item transformed_point (Z.of_nat i);
       TransformedDimension.reverse dim p)
    (imap pair self).

End TransformedSpace.

(** ** Predicates of the properties *)

(** The type that a list of requirements asks for, starting from [type]:
    the last requirement that names one. *)
Definition required_type (requirements : list (option type_name))
    (type : type_name) : type_name :=
  foldl (fun type requirement => default type requirement)
    type requirements.

(** The target type of a chain of transformers, read from its end. *)
Fixpoint chain_target (base : option type_name)
    (reversed : list transformer) : option type_name :=
  match reversed with
  | [] => base
  | apply :: rest =>
      match target_type apply with
      | Some type_after => Some type_after
      | None => chain_target base rest
      end
  end.

(** Every transformer of the chain takes what the chain before it
    gives. *)
Fixpoint well_chained (base : option type_name)
    (reversed : list transformer) : Prop :=
  match reversed with
  | [] => True
  | apply :: rest =>
      well_chained base rest
      /\ (domain_type apply = None
          \/ domain_type apply = chain_target base rest)
  end.

(** A point of the kind that a dimension of this type holds; an
    integer is one that a float64 holds exactly. *)
Definition belongs (dim : Dimension) (p : point) : Prop :=
  match type dim with
  | real => exists q, p = Real q
  | integer => exists z, p = Int z /\ - 2 ^ 53 <= z <= 2 ^ 53
  | categorical => exists c, p = Cat c /\ c ∈ categories dim
  | _ => False
  end.

(** What lines 52-74 keep true of the transformers gathered so far and
    of [type_]. *)
Definition gathered (base : option type_name)
    (acc : list transformer * option type_name) (type : type_name)
    : Prop :=
  acc.2 = Some type
  /\ type ∈ [real; integer; categorical]
  /\ well_chained base (rev acc.1)
  /\ chain_target base (rev acc.1) = Some type
  /\ forall t, last acc.1 = Some t -> target_type t = Some type.

(** ** An integer dimension *)

Definition layers : Dimension :=
  {| name := "layers";
     type := integer;
     categories := [];
     interval := fun _ => Ok (Int 1, Int 9007199254740992);
     contains := fun p =>
       match p with
       | Int z => bool_decide (1 <= z <= 9007199254740992)
       | _ => false
       end |}.

(** ** A fidelity dimension *)

Definition epoch : Dimension :=
  {| name := "epoch";
     type := fidelity;
     categories := [];
     interval := fun _ => Ok (Int 1, Int 100);
     contains := fun p =>
       match p with
       | Int z => bool_decide (1 <= z <= 100)
       | _ => false
       end |}.

(** The shape that a transformer announces is the shape of what it
    returns. *)
Definition shape_sound (t : transformer) : Prop :=
  forall p p', transform t p = Ok p' ->
    point_shape p' = infer_target_shape t (point_shape p).

End Transformer.

(** * [orion.core.io.space_builder] *)

Module SpaceBuilder.

Import Transformer.

(** ** Strings *)

(** [s[n:]] *)
Fixpoint string_drop (n : nat) (s : string) : string :=
  match n, s with
  | O, _ => s
  | S n', String _ s' => string_drop n' s'
  | S _, EmptyString => EmptyString
  end.

(** [s.replace(marker, '', 1)]: the first occurrence of [marker] is
    taken out. *)
Fixpoint remove_first (marker s : string) : string :=
  if String.prefix marker s then string_drop (String.length marker) s
  else match s with
       | EmptyString => EmptyString
       | String a s' => String a (remove_first marker s')
       end.

(** Lines 80-81. *)
Definition _should_not_be_built (expression : string) : bool :=
  String.prefix "-" expression || String.prefix ">" expression.

(** Lines 84-85. *)
Definition _remove_marker (expression marker : string) : string :=
  if String.prefix marker expression then remove_first marker expression
  else expression.

(** ** Ordered dictionaries

    An [OrderedDict] is the list of its items in insertion order, no key
    twice. *)

(** [odict[key] = value]: a key that is present keeps its place, a new
    key goes to the end. *)
Fixpoint setitem {V : Type} (key : string) (value : V)
    (odict : list (string * V)) : list (string * V) :=
  match odict with
  | [] => [(key, value)]
  | (k, v) :: rest =>
      if decide (k = key) then (key, value) :: rest
      else (k, v) :: setitem key value rest
  end.

(** Lines 66-77. *)
Definition replace_key_in_order {V : Type} (odict : list (string * V))
    (key_prev key_after : string) : list (string * V) :=
  foldl
    (fun tmp '(k, v) =>
       if decide (k = key_prev) then setitem key_after v tmp
       else setitem k v tmp)
    [] odict.

(** ** The space *)

(** Modelled from the spec: [Space.register] on a space of original
    dimensions, which enforces that names are unique.  The order in
    which a space lists its dimensions is the space's own; here they
    stand as they were registered, and no property below depends on
    it. *)
Definition register (space : list Dimension) (dim : Dimension)
    : result (list Dimension) :=
  if decide (name dim ∈ name <$> space) then Raise ValueError
  else Ok (space ++ [dim]).

Section Build.

(** [DimensionBuilder.build], which evaluates the expression. *)
Variable dimbuilder_build : string -> string -> result Dimension.

(** Lines 295-309; [configuration] is [configuration.items()]. *)
Definition build (configuration : list (string * string))
    : result (list Dimension) :=
  for_each
    (fun space '(namespace, expression) =>
       if _should_not_be_built expression then Ok space
       else
         let expression := _remove_marker expression "+" in
         dimension ← dimbuilder_build namespace expression;
         match register space dimension with
         | Raise ValueError => Raise ValueError    (* with a new message *)
         | registered => registered
         end)
    [] configuration.

End Build.

(** The key of an item after [key_prev] has been replaced. *)
Definition renamed (key_prev key_after k : string) : string :=
  if decide (k = key_prev) then key_after else k.

(** The items of a configuration that are built. *)
Definition built (configuration : list (string * string))
    : list (string * string) :=
  filter (fun item => _should_not_be_built item.2 = false) configuration.

End SpaceBuilder.

(** * Properties of the loops *)

Module LoopSpec.

(** A loop whose every step succeeds and carries the invariant from the
    elements done so far to one more. *)
Lemma for_each_steps {A B : Type} (I : list B -> A -> Prop)
    (body : A -> B -> result A) (l : list B) :
  (forall done x rest acc,
     l = done ++ x :: rest -> I done acc ->
     exists acc', body acc x = Ok acc' /\ I (done ++ [x]) acc') ->
  forall acc, I [] acc -> exists r, for_each body acc l = Ok r /\ I l r.
Proof.
  intros Hstep.
  assert (forall rest done acc,
            l = done ++ rest -> I done acc ->
            exists r, for_each body acc rest = Ok r /\ I l r) as Hgen.
  { induction rest as [|x rest IH]; intros done acc Hl Hacc.
    - exists acc. rewrite app_nil_r in Hl. by subst.
    - destruct (Hstep done x rest acc Hl Hacc) as (acc' & Hx & Hacc').
      simpl. rewrite Hx. simpl. apply (IH (done ++ [x])); [|done].
      by rewrite <- app_assoc. }
  intros acc Hacc. by apply (Hgen l []).
Qed.

(** A loop that returns carries the invariant from the elements done so
    far to one more. *)
Lemma for_each_prefix {A B : Type} (I : list B -> A -> Prop)
    (body : A -> B -> result A) (l : list B) :
  (forall done x rest acc acc',
     l = done ++ x :: rest -> I done acc -> body acc x = Ok acc' ->
     I (done ++ [x]) acc') ->
  forall acc r, I [] acc -> for_each body acc l = Ok r -> I l r.
Proof.
  intros Hstep.
  assert (forall rest done acc r,
            l = done ++ rest -> I done acc ->
            for_each body acc rest = Ok r -> I l r) as Hgen.
  { induction rest as [|x rest IH]; intros done acc r Hl Hacc; simpl.
    - intros [= <-]. rewrite app_nil_r in Hl. by subst.
    - destruct (body acc x) as [acc'|e] eqn:Hx; simpl; [|done].
      apply (IH (done ++ [x])).
      + by rewrite <- app_assoc.
      + by eapply Hstep. }
  intros acc r Hacc. by apply (Hgen l []).
Qed.

Lemma for_each_app {A B : Type} (body : A -> B -> result A) (acc : A)
    (l1 l2 : list B) :
  for_each body acc (l1 ++ l2)
  = (acc' ← for_each body acc l1; for_each body acc' l2).
Proof.
  revert acc. induction l1 as [|x l1 IH]; intros acc; simpl; [done|].
  destruct (body acc x) as [acc'|e]; simpl; [apply IH|done].
Qed.

(** A comprehension whose every element is computed. *)
Lemma for_list_fmap {A B : Type} (f : A -> result B) (g : A -> B)
    (l : list A) :
  (forall x, x ∈ l -> f x = Ok (g x)) ->
  for_list f l = Ok (g <$> l).
Proof.
  induction l as [|x l IH]; intros Hf; [done|]. simpl.
  rewrite (Hf x) by left. simpl. rewrite IH; [done|].
  intros y Hy. apply Hf. by right.
Qed.

End LoopSpec.

(** * Properties of the budget schedule *)

Module BudgetsSpec.

Import Budgets.
Local Open Scope Z_scope.


(** ** The exact bracket count *)

Lemma ilog_bounds (fuel : nat) (b : Q) :
  (1 < b)%Q ->
  forall x : Q,
    (1 <= x)%Q ->
    (x < 1 + inject_Z (Z.of_nat fuel) * (b - 1))%Q ->
    0 <= ilog fuel b x
    /\ (Qpower b (ilog fuel b x) <= x)%Q
    /\ (x < Qpower b (ilog fuel b x + 1))%Q.
Proof.
  intros Hb. induction fuel as [|fuel IH]; intros x Hx Hfuel.
  - change (inject_Z (Z.of_nat 0)) with 0%Q in Hfuel. lra.
  - cbn [ilog]. destruct (Qle_bool b x) eqn:Hle.
    + apply Qle_bool_iff in Hle.
      assert (x == b * (x / b))%Q as Hdiv by (field; lra).
      assert (1 <= x / b)%Q as Hx'.
      { apply Qle_shift_div_l; lra. }
      assert (0 <= inject_Z (Z.of_nat fuel))%Q as Hf.
      { change 0%Q with (inject_Z 0). rewrite <- Zle_Qle. lia. }
      assert (x / b < 1 + inject_Z (Z.of_nat fuel) * (b - 1))%Q as Hfuel'.
      { rewrite Nat2Z.inj_succ in Hfuel. unfold Z.succ in Hfuel.
        rewrite inject_Z_plus in Hfuel.
        set (f := inject_Z (Z.of_nat fuel)) in *.
        set (y := (x / b)%Q) in *.
        change (inject_Z 1) with 1%Q in Hfuel.
        nra. }
      destruct (IH (x / b)%Q Hx' Hfuel') as (Hk & Hlow & Hhigh).
      split; [lia|].
      assert (~ b == 0)%Q as Hb0 by lra.
      rewrite !Qpower_plus by done. rewrite Qpower_plus in Hhigh by done.
      change (Qpower b 1) with b in *.
      set (p := Qpower b (ilog fuel b (x / b))) in *.
      set (y := (x / b)%Q) in *.
      split; nra.
    + split; [lia|]. simpl. split; [lra|].
      destruct (Qlt_le_dec x b) as [Hlt|Hge]; [done|].
      apply Qle_bool_iff in Hge. congruence.
Qed.

(** [ilog_fuel] is enough fuel: the result [k] of [ilog] is the integer
    with [b ^ k <= x < b ^ (k + 1)]. *)
Lemma ilog_exact (b x : Q) :
  (1 < b)%Q -> (1 <= x)%Q ->
  0 <= ilog (ilog_fuel b x) b x
  /\ (Qpower b (ilog (ilog_fuel b x) b x) <= x)%Q
  /\ (x < Qpower b (ilog (ilog_fuel b x) b x + 1))%Q.
Proof.
  intros Hb Hx. apply ilog_bounds; try done.
  unfold ilog_fuel. rewrite Nat2Z.inj_succ, Z2Nat.id.
  - unfold Z.succ. rewrite inject_Z_plus.
    pose proof (Qle_ceiling ((x - 1) / (b - 1))) as Hc.
    change (inject_Z 1) with 1%Q.
    set (m := inject_Z (Qceiling ((x - 1) / (b - 1)))) in *.
    assert ((x - 1) == (x - 1) / (b - 1) * (b - 1))%Q as Hd by (field; lra).
    set (q := ((x - 1) / (b - 1))%Q) in *.
    nra.
  - assert (0 <= (x - 1) / (b - 1))%Q as Hq.
    { apply Qle_shift_div_l; lra. }
    pose proof (Qle_ceiling ((x - 1) / (b - 1))) as Hc.
    assert (0 <= inject_Z (Qceiling ((x - 1) / (b - 1))))%Q as H0 by lra.
    change 0%Q with (inject_Z 0) in H0. rewrite <- Zle_Qle in H0. exact H0.
Qed.

Lemma Qle_bool_false (x y : Q) : (y < x)%Q -> Qle_bool x y = false.
Proof.
  intros Hlt. destruct (Qle_bool x y) eqn:Hle; [|done].
  apply Qle_bool_iff in Hle. lra.
Qed.

Lemma Qeq_bool_false (x y : Q) : ~ (x == y)%Q -> Qeq_bool x y = false.
Proof.
  intros Hne. destruct (Qeq_bool x y) eqn:Heq; [|done].
  by apply Qeq_bool_iff in Heq.
Qed.

(** For [reduction_factor > 1] and [max_resources >= 1] the exact
    bracket count is the integer part of the logarithm of
    [max_resources] in base [reduction_factor]. *)
Lemma exact_log_quotient_spec (max_resources reduction_factor : number) :
  (1 < to_Q reduction_factor)%Q ->
  (1 <= to_Q max_resources)%Q ->
  exists k : Z,
    exact_log_quotient max_resources reduction_factor = Ok k
    /\ 0 <= k
    /\ (Qpower (to_Q reduction_factor) k <= to_Q max_resources)%Q
    /\ (to_Q max_resources < Qpower (to_Q reduction_factor) (k + 1))%Q.
Proof.
  intros Hb Hx. unfold exact_log_quotient.
  assert (Qle_bool 0 (to_Q max_resources) = true) as ->
    by (apply Qle_bool_iff; lra).
  assert (Qle_bool 0 (to_Q reduction_factor) = true) as ->
    by (apply Qle_bool_iff; lra).
  rewrite !Qeq_bool_false by lra.
  assert (Qle_bool 1 (to_Q reduction_factor) = true) as ->
    by (apply Qle_bool_iff; lra).
  assert (Qle_bool 1 (to_Q max_resources) = true) as ->
    by (by apply Qle_bool_iff).
  simpl. eexists. split; [reflexivity|]. by apply ilog_exact.
Qed.

(** ** The schedule *)

(** Once the schedule line is open, every further level is appended to
    it with the count [pairs * 2]. *)
Lemma later_rungs (lo nums_population pairs : Z) (levels : list Z) :
  Forall (fun i => i ≠ lo) levels ->
  forall line : list (Z * Z),
    for_each
      (fun budgets_eves i =>
         add_rung (i =? lo) nums_population pairs budgets_eves i)
      [line] levels
    = Ok [line ++ ((fun i => (pairs * 2, i)) <$> levels)].
Proof.
  induction 1 as [|i levels Hi _ IH]; intros line; simpl.
  - by rewrite app_nil_r.
  - apply Z.eqb_neq in Hi. rewrite Hi. simpl.
    rewrite IH. by rewrite <- app_assoc.
Qed.

(** C4: with [reduction_factor == 1] and integer bounds [lo <= hi],
    [compute_budgets] returns one schedule line of [hi - lo + 1] rungs;
    its resource levels are [lo, lo + 1, ..., hi], its first count is
    [nums_population] and every later count is [2 * pairs]. *)
Theorem unit_factor_schedule
    (log_quotient : number -> number -> result Z)
    (lo hi : Z) (reduction_factor : number) (nums_population pairs : Z) :
  lo <= hi ->
  num_eqb reduction_factor (PyInt 1) = true ->
  exists line : list (Z * Z),
    compute_budgets log_quotient (PyInt lo) (PyInt hi) reduction_factor
      nums_population pairs = Ok [line]
    /\ Z.of_nat (length line) = hi - lo + 1
    /\ line.*2 = seqZ lo (hi - lo + 1)
    /\ line.*1 = nums_population
                 :: replicate (Z.to_nat (hi - lo)) (2 * pairs).
Proof.
  intros Hle Hone.
  exists ((nums_population, lo)
          :: ((fun i => (pairs * 2, i)) <$> seqZ (lo + 1) (hi - lo))).
  split; [|split; [|split]].
  - unfold compute_budgets, py_range. rewrite Hone.
    rewrite seqZ_cons by lia. simpl. rewrite Z.eqb_refl. simpl.
    replace (Z.succ lo) with (lo + 1) by lia.
    replace (Z.pred (hi + 1 - lo)) with (hi - lo) by lia.
    apply (later_rungs lo nums_population pairs)
      with (line := [(nums_population, lo)]).
    apply Forall_forall. intros i Hi%elem_of_seqZ. lia.
  - simpl. rewrite length_fmap, length_seqZ. lia.
  - simpl. rewrite <- list_fmap_compose.
    rewrite (seqZ_cons lo) by lia. f_equal.
    + replace (Z.succ lo) with (lo + 1) by lia.
      replace (Z.pred (hi - lo + 1)) with (hi - lo) by lia.
      by rewrite list_fmap_id.
  - simpl. f_equal. rewrite <- list_fmap_compose.
    rewrite (const_fmap _ _ (2 * pairs)).
    + by rewrite length_seqZ.
    + intros i. simpl. lia.
Qed.

Lemma unit_factor_schedule_witness :
  exists line : list (Z * Z),
    compute_budgets exact_log_quotient (PyInt 3) (PyInt 6) (PyInt 1) 20 10
    = Ok [line]
    /\ Z.of_nat (length line) = 6 - 3 + 1
    /\ line.*2 = seqZ 3 (6 - 3 + 1)
    /\ line.*1 = 20 :: replicate (Z.to_nat (6 - 3)) (2 * 10).
Proof.
  apply (unit_factor_schedule exact_log_quotient 3 6 (PyInt 1) 20 10).
  - lia.
  - reflexivity.
Defined.




Import LoopSpec.

(** ** The lines of a schedule *)

(** Lines 67-71 over a bracket given by its rungs [h 0, ..., h (m - 1)]:
    every index from [1] on appends [(pairs * 2, level)]. *)
Lemma indexed_rungs (h : Z -> Z * Z) (m nums_population pairs : Z)
    (indices : list Z) :
  Forall (fun i => 1 <= i < m) indices ->
  forall line : list (Z * Z),
    for_each
      (fun budgets_eves i =>
         match (h <$> seqZ 0 m) !! Z.to_nat i with
         | Some (_, resource) =>
             add_rung (i =? 0) nums_population pairs budgets_eves resource
         | None => Raise IndexError
         end)
      [line] indices
    = Ok [line ++ ((fun i => (pairs * 2, (h i).2)) <$> indices)].
Proof.
  induction 1 as [|i indices Hi _ IH]; intros line; simpl.
  - by rewrite app_nil_r.
  - assert ((h <$> seqZ 0 m) !! Z.to_nat i = Some (h i)) as ->.
    { rewrite list_lookup_fmap, lookup_seqZ_lt by lia. simpl.
      f_equal. f_equal. lia. }
    destruct (h i) as [n resource] eqn:Hh.
    assert ((i =? 0) = false) as -> by (apply Z.eqb_neq; lia).
    simpl. by rewrite IH, <- app_assoc.
Qed.

Lemma for_list_length {A B : Type} (f : A -> result B) (l : list A) :
  forall r, for_list f l = Ok r -> length r = length l.
Proof.
  induction l as [|x l IH]; intros r; simpl.
  - by intros [= <-].
  - destruct (f x) as [y|]; simpl; [|done].
    destruct (for_list f l) as [ys|]; simpl; [|done].
    intros [= <-]. simpl. f_equal. by apply IH.
Qed.

Lemma list_as_fmap {A : Type} (d : A) (l : list A) :
  l = (fun i => default d (l !! Z.to_nat i))
      <$> seqZ 0 (Z.of_nat (length l)).
Proof.
  apply list_eq. intros i. rewrite list_lookup_fmap.
  destruct (decide (i < length l)%nat) as [Hlt|Hge].
  - rewrite lookup_seqZ_lt by lia. simpl.
    destruct (lookup_lt_is_Some_2 l i Hlt) as [x Hx].
    replace (Z.to_nat (0 + Z.of_nat i)) with i by lia. by rewrite Hx.
  - rewrite lookup_seqZ_ge by lia. simpl. apply lookup_ge_None. lia.
Qed.

(** A schedule that is returned has one line, and that line has a rung;
    or it has no line at all, which happens for [reduction_factor == 1]
    and an empty range of resources alone. *)
Lemma schedule_lines (log_quotient : number -> number -> result Z)
    (min_resources max_resources reduction_factor : number)
    (nums_population pairs : Z) (budgets : list rungs) :
  compute_budgets log_quotient min_resources max_resources reduction_factor
    nums_population pairs = Ok budgets ->
  (exists line, budgets = [line] /\ line ≠ [])
  \/ (budgets = []
      /\ num_eqb reduction_factor (PyInt 1) = true
      /\ exists lo hi,
           min_resources = PyInt lo /\ max_resources = PyInt hi /\ hi < lo).
Proof.
  unfold compute_budgets.
  destruct (num_eqb reduction_factor (PyInt 1)) eqn:Hone.
  - destruct min_resources as [lo|], max_resources as [hi|]; try done.
    destruct (decide (lo <= hi)) as [Hle|Hgt].
    + unfold py_range. rewrite seqZ_cons by lia. simpl.
      rewrite Z.eqb_refl. simpl.
      rewrite (later_rungs lo nums_population pairs).
      * intros [= <-]. left. by eexists.
      * apply Forall_forall. intros i Hi%elem_of_seqZ. lia.
    + unfold py_range. rewrite seqZ_nil by lia. intros [= <-].
      right. split_and!; [done..|]. exists lo, hi. split_and!; [done..|lia].
  - destruct (log_quotient max_resources reduction_factor)
      as [num_brackets|]; cbn [mbind result_bind]; [|done].
    destruct (for_list _ _) as [[|budgets_0 others]|] eqn:Hbudgets;
      cbn [mbind result_bind]; [done| |done].
    intros Hlines. left.
    assert (0 <= num_brackets) as Hnb.
    { destruct (decide (0 <= num_brackets)) as [|Hneg]; [done|].
      unfold py_range in Hbudgets. by rewrite seqZ_nil in Hbudgets by lia. }
    assert (length budgets_0 = Z.to_nat (num_brackets + 1)) as Hlength.
    { unfold py_range in Hbudgets.
      rewrite seqZ_cons in Hbudgets by lia. cbn [for_list] in Hbudgets.
      destruct (bracket_budgets _ _ _ 0) as [b|] eqn:Hb;
        cbn [mbind result_bind] in Hbudgets; [|done].
      destruct (for_list _ _) as [bs|];
        cbn [mbind result_bind mret result_ret] in Hbudgets; [|done].
      injection Hbudgets as -> _.
      unfold bracket_budgets in Hb.
      destruct (py_div _ _) as [min_r|]; cbn [mbind result_bind] in Hb;
        [|done].
      apply for_list_length in Hb. rewrite Hb. unfold py_range.
      rewrite length_seqZ. lia. }
    revert Hlines. unfold py_range. rewrite Hlength.
    replace (Z.of_nat (Z.to_nat (num_brackets + 1)) - 0)
      with (Z.succ num_brackets) by lia.
    rewrite seqZ_cons by lia. cbn [for_each].
    destruct (lookup_lt_is_Some_2 budgets_0 (Z.to_nat 0)) as [[t r] Hfirst];
      [lia|].
    rewrite Hfirst. cbn [add_rung Z.eqb app mbind result_bind].
    pose proof (indexed_rungs
                  (fun i => default (0, 0) (budgets_0 !! Z.to_nat i))
                  (Z.of_nat (length budgets_0)) nums_population pairs
                  (seqZ (Z.succ 0) (Z.pred (Z.succ num_brackets))))
      as Hrest.
    rewrite <- (list_as_fmap (0, 0) budgets_0) in Hrest.
    rewrite Hrest.
    + intros [= <-]. by eexists.
    + apply Forall_forall. intros i Hi%elem_of_seqZ. lia.
Qed.

End BudgetsSpec.

(** * Properties of the evolutionary bracket *)

Module BracketSpec.

Import Bracket.
Import LoopSpec.

(** ** Objective comparisons *)

Lemma obj_ltb_geb (a b : objective) :
  obj_ltb a b = true -> obj_geb a b = false.
Proof.
  destruct a as [x| | |], b as [y| | |]; simpl; try done.
  by rewrite negb_true_iff.
Qed.

Lemma obj_ltb_asym (a b : objective) :
  obj_ltb b a = true -> obj_ltb a b = false /\ obj_geb a b = true.
Proof.
  destruct a as [x| | |], b as [y| | |]; simpl; try done.
  rewrite negb_true_iff, negb_false_iff. intros Hxy.
  assert (Qle_bool y x = true) as ->; [|done].
  apply Qle_bool_iff. destruct (Qlt_le_dec y x) as [Hlt|Hle].
  - by apply Qlt_le_weak.
  - apply Qle_bool_iff in Hle. congruence.
Qed.

Lemma obj_ltb_tie (a b : objective) :
  obj_eqb a b = true -> obj_ltb a b = false /\ obj_geb a b = true.
Proof.
  destruct a as [x| | |], b as [y| | |]; simpl; try done.
  intros Heq%Qeq_bool_iff.
  assert (Qle_bool y x = true) as ->; [|done].
  apply Qle_bool_iff. rewrite Heq. apply Qle_refl.
Qed.

(** Without a [nan], [>=] is the negation of [<]. *)
Lemma obj_geb_ltb (a b : objective) :
  a ≠ NaN -> b ≠ NaN -> obj_geb a b = negb (obj_ltb a b).
Proof.
  destruct a as [x| | |], b as [y| | |]; simpl; try done.
  by rewrite negb_involutive.
Qed.

(** With a [nan], both [<] and [>=] are false. *)
Lemma obj_nan (a b : objective) :
  a = NaN \/ b = NaN -> obj_ltb a b = false /\ obj_geb a b = false.
Proof. intros [-> | ->]; [by destruct b|by destruct a]. Qed.

(** ** Drawing without replacement *)

Lemma draw_S (k : nat) (pool : list nat) (g : rng) :
  draw (S k) pool g
  = let i := (hd O g mod length pool)%nat in
    match pool !! i with
    | Some x =>
        let '(xs, g') := draw k (delete i pool) (tl g) in (x :: xs, g')
    | None => ([], g)
    end.
Proof. reflexivity. Qed.

(** [k] draws split the pool into the drawn elements and the rest. *)
Lemma draw_splits (k : nat) :
  forall (pool : list nat) (g : rng),
    (k <= length pool)%nat ->
    exists rest, pool ≡ₚ (draw k pool g).1 ++ rest
                 /\ length (draw k pool g).1 = k.
Proof.
  induction k as [|k IH]; intros pool g Hk.
  - exists pool. done.
  - rewrite draw_S. cbv zeta.
    set (i := (hd O g mod length pool)%nat).
    assert (i < length pool)%nat as Hi.
    { apply Nat.mod_upper_bound. lia. }
    destruct (lookup_lt_is_Some_2 pool i Hi) as [x Hx]. rewrite Hx.
    destruct (IH (delete i pool) (tl g)) as (rest & Hperm & Hlen).
    { rewrite length_delete by eauto. lia. }
    destruct (draw k (delete i pool) (tl g)) as [xs g'].
    simpl in *. exists rest. split; [|lia].
    rewrite <- Hperm, delete_take_drop.
    rewrite <- (take_drop_middle pool i x Hx) at 1.
    by rewrite Permutation_middle.
Qed.

Lemma np_random_choice_spec (pool : list nat) (k : nat) (g : rng) :
  NoDup pool ->
  (k <= length pool)%nat ->
  exists team g' rest,
    np_random_choice pool k g = Ok (team, g')
    /\ pool ≡ₚ team ++ rest
    /\ length team = k
    /\ NoDup team
    /\ (forall x, x ∈ team -> x ∈ pool).
Proof.
  intros Hnodup Hk. unfold np_random_choice. rewrite decide_True by done.
  destruct (draw_splits k pool g Hk) as (rest & Hperm & Hlen).
  destruct (draw k pool g) as [team g']. simpl in *.
  exists team, g', rest. repeat split; try done.
  - rewrite Hperm in Hnodup. by apply NoDup_app in Hnodup as (? & _ & _).
  - intros x Hx. rewrite Hperm. apply elem_of_app. by left.
Qed.

(** Lines 187-190: the two teams. *)
Lemma select_teams_spec (c : config) (g : rng) :
  (nums_comp_pairs c * 2 <= nums_population c)%nat ->
  exists red_team blue_team g',
    select_teams c g = Ok (red_team, blue_team, g')
    /\ length red_team = nums_comp_pairs c
    /\ length blue_team = nums_comp_pairs c
    /\ NoDup red_team
    /\ NoDup blue_team
    /\ (forall x, x ∈ red_team -> (x < nums_population c)%nat)
    /\ (forall x, x ∈ blue_team -> (x < nums_population c)%nat)
    /\ (forall x, x ∈ red_team -> x ∉ blue_team).
Proof.
  intros Hpairs. unfold select_teams.
  destruct (np_random_choice_spec (seq 0 (nums_population c))
              (nums_comp_pairs c) g)
    as (red & g1 & rest & -> & Hperm & Hred & Hnd_red & Hin_red).
  { apply NoDup_seq. }
  { rewrite length_seq. lia. }
  simpl.
  assert (NoDup (red ++ rest)) as Hnd.
  { rewrite <- Hperm. apply NoDup_seq. }
  assert (list_difference (seq 0 (nums_population c)) red ≡ₚ rest) as Hdiff.
  { apply NoDup_Permutation.
    - apply NoDup_list_difference, NoDup_seq.
    - apply NoDup_app in Hnd. tauto.
    - intros x. rewrite list_elem_of_difference, Hperm, elem_of_app.
      apply NoDup_app in Hnd. destruct Hnd as (_ & Hdisj & _).
      specialize (Hdisj x). tauto. }
  destruct (np_random_choice_spec
              (list_difference (seq 0 (nums_population c)) red)
              (nums_comp_pairs c) g1)
    as (blue & g2 & rest' & -> & _ & Hblue & Hnd_blue & Hin_blue).
  { apply NoDup_list_difference, NoDup_seq. }
  { rewrite Hdiff.
    assert (length (seq 0 (nums_population c)) = length (red ++ rest))
      as Hlen by by rewrite Hperm.
    rewrite length_seq, length_app in Hlen. lia. }
  simpl. exists red, blue, g2. repeat split; try done.
  - intros x Hx. apply Hin_red, elem_of_seq in Hx. lia.
  - intros x Hx. apply Hin_blue, list_elem_of_difference in Hx.
    destruct Hx as [Hx _]. apply elem_of_seq in Hx. lia.
  - intros x Hx Hx'. apply Hin_blue, list_elem_of_difference in Hx'.
    tauto.
Qed.

(** ** Shapes *)

Lemma elem_of_search_space (c : config) (j : nat) :
  j ∈ search_space_remove_fidelity c
  <-> (j < length (space c))%nat /\ j ≠ fidelity_index c.
Proof.
  unfold search_space_remove_fidelity.
  rewrite list_elem_of_filter, elem_of_seq. lia.
Qed.

Lemma population_set_Ok (key i : nat) (value : Q) (p : gmap nat (list Q))
    (column : list Q) :
  p !! key = Some column ->
  (i < length column)%nat ->
  population_set key i value p = Ok (<[key := <[i := value]> column]> p).
Proof.
  intros Hkey Hi. unfold population_set, dict_get, array_set.
  rewrite Hkey. simpl. by rewrite decide_True.
Qed.

(** Slot [i] of the columns [keys] is written, one key after the other,
    with values that depend on the key alone. *)
Lemma set_slots (c : config) (i : nat)
    (body : gmap nat (list Q) -> nat -> result (gmap nat (list Q)))
    (val : nat -> Q) (p0 : gmap nat (list Q)) (keys : list nat) :
  NoDup keys ->
  (forall key, key ∈ keys -> key ∈ search_space_remove_fidelity c) ->
  shaped c p0 ->
  (i < nums_population c)%nat ->
  (forall p key, key ∈ keys -> p !! key = p0 !! key ->
     body p key = population_set key i (val key) p) ->
  exists p',
    for_each body p0 keys = Ok p'
    /\ shaped c p'
    /\ (forall key column, key ∈ keys -> p0 !! key = Some column ->
          p' !! key = Some (<[i := val key]> column))
    /\ (forall key, key ∉ keys -> p' !! key = p0 !! key).
Proof.
  intros Hnodup Hkeys Hshaped Hi Hbody.
  destruct (for_each_steps
              (fun done p =>
                 shaped c p
                 /\ (forall key column,
                       key ∈ done -> p0 !! key = Some column ->
                       p !! key = Some (<[i := val key]> column))
                 /\ (forall key, key ∉ done -> p !! key = p0 !! key))
              body keys) with (acc := p0) as (p' & Hrun & Hinv).
  - intros done key rest p Hsplit (Hsh & Hdone & Hrest).
    assert (key ∉ done) as Hfresh.
    { rewrite Hsplit in Hnodup. apply NoDup_app in Hnodup as (_ & Hdisj & _).
      intros Hin. apply (Hdisj key Hin). by left. }
    assert (key ∈ keys) as Hin.
    { rewrite Hsplit. apply elem_of_app. right. by left. }
    destruct (Hshaped key (Hkeys key Hin)) as (column & Hcol & Hlen).
    rewrite Hbody by (by try apply Hrest).
    rewrite (population_set_Ok key i (val key) p column)
      by (rewrite ?Hrest by done; done || lia).
    eexists. split; [done|]. split_and!.
    + intros j Hj. destruct (decide (j = key)) as [->|Hne].
      * eexists. rewrite lookup_insert_eq. split; [done|].
        by rewrite length_insert.
      * rewrite lookup_insert_ne by done. by apply Hsh.
    + intros j column' Hj Hcol'.
      apply elem_of_app in Hj as [Hj|Hj%list_elem_of_singleton].
      * rewrite lookup_insert_ne by (intros ->; done). by apply Hdone.
      * subst j. rewrite lookup_insert_eq. congruence.
    + intros j Hj. rewrite lookup_insert_ne.
      * apply Hrest. intros Hin'. apply Hj. apply elem_of_app. by left.
      * intros ->. apply Hj. apply elem_of_app. right. by left.
  - split_and!; [done| |done]. intros key column Hin.
    by apply elem_of_nil in Hin.
  - exists p'. destruct Hinv as (? & ? & ?). done.
Qed.

Lemma NoDup_search_space (c : config) :
  NoDup (search_space_remove_fidelity c).
Proof. apply NoDup_filter, NoDup_seq. Qed.

(** The value that [copy_winner] reads for [key]. *)
Lemma copy_winner_loop (c : config) (winner_id loser_id : nat)
    (p : gmap nat (list Q)) :
  shaped c p ->
  (winner_id < nums_population c)%nat ->
  (loser_id < nums_population c)%nat ->
  exists p',
    copy_winner c winner_id loser_id p = Ok p'
    /\ shaped c p'
    /\ (forall key column, key ∈ search_space_remove_fidelity c ->
          p !! key = Some column ->
          exists value, column !! winner_id = Some value
                        /\ p' !! key = Some (<[loser_id := value]> column))
    /\ (forall key, key ∉ search_space_remove_fidelity c ->
          p' !! key = p !! key).
Proof.
  intros Hshaped Hw Hl. unfold copy_winner.
  set (val := fun key : nat =>
         default 0%Q (p !! key ≫= fun column => column !! winner_id)).
  destruct (set_slots c loser_id
              (fun p key =>
                 column ← dict_get p key;
                 value ← array_get column winner_id;
                 population_set key loser_id value p)
              val p (search_space_remove_fidelity c))
    as (p' & Hrun & Hsh & Hset & Hframe); try done.
  - apply NoDup_search_space.
  - intros p1 key Hkey Hsame.
    destruct (Hshaped key Hkey) as (column & Hcol & Hlen).
    unfold dict_get, array_get. rewrite Hsame, Hcol. simpl.
    destruct (lookup_lt_is_Some_2 column winner_id) as [value Hvalue];
      [lia|].
    rewrite Hvalue. simpl. subst val. simpl. rewrite Hcol. simpl.
    by rewrite Hvalue.
  - exists p'. split_and!; try done.
    intros key column Hkey Hcol.
    destruct (Hshaped key Hkey) as (column' & Hcol' & Hlen).
    assert (column' = column) as -> by congruence.
    destruct (lookup_lt_is_Some_2 column winner_id) as [value Hvalue];
      [lia|].
    exists value. split; [done|]. rewrite (Hset key column) by done.
    subst val. simpl. rewrite Hcol. simpl. by rewrite Hvalue.
Qed.

Lemma copy_mutate_shape : shape_preserving copy_mutate.
Proof.
  intros c p g winner_id loser_id mf af Hshaped Hw Hl.
  destruct (copy_winner_loop c winner_id loser_id p Hshaped Hw Hl)
    as (p' & Hrun & Hshaped' & _).
  exists p', g. unfold copy_mutate. rewrite Hrun. done.
Qed.

Lemma six_well_formed : well_formed six_config six_store.
Proof.
  split; [|done]. intros j Hj. apply elem_of_search_space in Hj.
  simpl in Hj. assert (j = O) as -> by lia. by eexists.
Qed.

(** ** The pairs *)

Section Tournament.

Variable mutate_func :
  config -> gmap nat (list Q) -> rng -> nat -> nat -> Q -> Q ->
  result (gmap nat (list Q) * rng).

Hypothesis mutate_shape : shape_preserving mutate_func.

Lemma mutate_shaped (c : config) (winner_id loser_id : nat) (s : store) :
  well_formed c s ->
  (winner_id < nums_population c)%nat ->
  (loser_id < nums_population c)%nat ->
  exists s',
    _mutate mutate_func c winner_id loser_id s = Ok s'
    /\ same_records c s s'.
Proof.
  intros [Hshaped Hperf] Hw Hl. unfold _mutate.
  destruct (mutate_shape c (population s) (random s) winner_id loser_id
              (multiply_factor c) (add_factor c) Hshaped Hw Hl)
    as (p' & g' & -> & Hshaped').
  eexists. split; [done|]. by split_and!.
Qed.

(** Lines 196-207, pair by pair: the pairs done so far are decided on
    the performance as it was loaded, and the arrays stay in shape. *)
Lemma compete_loop (c : config) (red_team blue_team : list nat)
    (s0 : store) :
  length blue_team = length red_team ->
  (forall x, x ∈ red_team -> (x < nums_population c)%nat) ->
  (forall x, x ∈ blue_team -> (x < nums_population c)%nat) ->
  forall acc : pairing,
    same_records c s0 (after acc) ->
    winner_list acc = [] ->
    loser_list acc = [] ->
    exists round,
      for_each (compete mutate_func c red_team blue_team) acc
        (seq 0 (length red_team))
      = Ok round
      /\ same_records c s0 (after round)
      /\ length (winner_list round) = length red_team
      /\ length (loser_list round) = length red_team
      /\ (forall i, (i < length red_team)%nat ->
            decided red_team blue_team (performance s0)
              (winner_list round) (loser_list round) i)
      /\ hurdle round
         = foldl obj_add (hurdle acc)
             (zip_with (lower_objective (performance s0))
                red_team blue_team).
Proof.
  intros Hlen Hred Hblue acc Hacc Hwinners Hlosers.
  remember (hurdle acc) as h0 eqn:Hh0.
  destruct (for_each_steps
              (fun done acc =>
                 same_records c s0 (after acc)
                 /\ length (winner_list acc) = length done
                 /\ length (loser_list acc) = length done
                 /\ (forall i, (i < length done)%nat ->
                       decided red_team blue_team (performance s0)
                         (winner_list acc) (loser_list acc) i)
                 /\ hurdle acc
                    = foldl obj_add h0
                        (zip_with (lower_objective (performance s0))
                           (take (length done) red_team)
                           (take (length done) blue_team)))
              (compete mutate_func c red_team blue_team)
              (seq 0 (length red_team))) with (acc := acc)
    as (round & Hrun & Hsame & Hw & Hl & Hdecided & Hhurdle).
  - clear acc Hacc Hwinners Hlosers Hh0.
    intros done i rest acc Hsplit (Hacc & Hw & Hl & Hdone & Hsum).
    assert (i = length done /\ (i < length red_team)%nat) as [-> Hi].
    { assert (seq 0 (length red_team) !! length done = Some i) as Hat.
      { rewrite Hsplit. by apply list_lookup_middle. }
      apply lookup_seq in Hat. lia. }
    destruct Hacc as ([Hshaped Hperf] & Hsame & Hhurdles).
    set (perf := performance (after acc)) in *.
    destruct (lookup_lt_is_Some_2 red_team (length done)) as [red Hr];
      [lia|].
    destruct (lookup_lt_is_Some_2 blue_team (length done)) as [blue Hb];
      [lia|].
    pose proof (Hred red (list_elem_of_lookup_2 _ _ _ Hr)) as Hred_lt.
    pose proof (Hblue blue (list_elem_of_lookup_2 _ _ _ Hb)) as Hblue_lt.
    destruct (lookup_lt_is_Some_2 perf red) as [red_perf Hrp]; [lia|].
    destruct (lookup_lt_is_Some_2 perf blue) as [blue_perf Hbp]; [lia|].
    set (winner := if obj_ltb red_perf blue_perf then red else blue).
    set (loser := if obj_geb red_perf blue_perf then red else blue).
    assert (winner < nums_population c)%nat as Hwinner.
    { subst winner. by destruct (obj_ltb red_perf blue_perf). }
    assert (loser < nums_population c)%nat as Hloser.
    { subst loser. by destruct (obj_geb red_perf blue_perf). }
    destruct (lookup_lt_is_Some_2 perf winner) as [winner_perf Hwp];
      [lia|].
    destruct (mutate_shaped c winner loser (after acc))
      as (s' & Hmut & Hwf' & Hperf' & Hhurdles'); [done..|].
    exists {| winner_list := winner_list acc ++ [winner];
              loser_list := loser_list acc ++ [loser];
              hurdle := obj_add (hurdle acc) winner_perf;
              after := s' |}.
    split.
    { unfold compete, array_get. fold perf. rewrite Hr. simpl.
      rewrite Hrp. simpl. rewrite Hb. simpl. rewrite Hbp. simpl.
      assert ((if obj_ltb red_perf blue_perf then red_team else blue_team)
                !! length done = Some winner) as ->.
      { subst winner. by destruct (obj_ltb red_perf blue_perf). }
      simpl.
      assert ((if obj_geb red_perf blue_perf then red_team else blue_team)
                !! length done = Some loser) as ->.
      { subst loser. by destruct (obj_geb red_perf blue_perf). }
      simpl. rewrite Hwp. simpl. rewrite Hmut. reflexivity. }
    cbn [after winner_list loser_list hurdle]. rewrite !length_app.
    cbn [length]. rewrite Nat.add_1_r.
    split_and!; [|lia..| |].
    + subst perf. unfold same_records; split_and!; [done|congruence..].
    + intros i Hi'. destruct (decide (i = length done)) as [->|Hne].
      * exists red, blue, red_perf, blue_perf.
        subst perf. rewrite Hsame in Hrp, Hbp. split_and!; try done.
        -- rewrite lookup_app_r by lia. by rewrite Hw, Nat.sub_diag.
        -- rewrite lookup_app_r by lia. by rewrite Hl, Nat.sub_diag.
      * destruct (Hdone i) as (r & b & rp & bp & ? & ? & ? & ? & ? & ?);
          [lia|].
        exists r, b, rp, bp. split_and!; try done.
        -- rewrite lookup_app_l by lia. done.
        -- rewrite lookup_app_l by lia. done.
    + rewrite ?Nat.add_1_r, (take_S_r _ _ _ Hr), (take_S_r _ _ _ Hb).
      rewrite zip_with_app by (rewrite !length_take; lia).
      rewrite foldl_app, <- Hsum. cbn [zip_with foldl]. f_equal.
      unfold lower_objective. subst perf. rewrite <- Hsame, Hrp, Hbp.
      subst winner. destruct (obj_ltb red_perf blue_perf); congruence.
  - rewrite Hwinners, Hlosers. split_and!; [done..| |done].
    intros i Hi. simpl in Hi. lia.
  - exists round. rewrite length_seq in Hw, Hl, Hdecided, Hhurdle.
    rewrite !take_ge in Hhurdle by lia. by split_and!.
Qed.

(** Lines 187-207 on arrays in shape: the teams of [select_teams], one
    decided pair for each index, and arrays that are in shape again. *)
Lemma tournament_runs (c : config) (s : store) :
  well_formed c s ->
  (nums_comp_pairs c * 2 <= nums_population c)%nat ->
  exists red_team blue_team round,
    tournament mutate_func c s = Ok (red_team, blue_team, round)
    /\ length red_team = nums_comp_pairs c
    /\ length blue_team = nums_comp_pairs c
    /\ NoDup red_team
    /\ NoDup blue_team
    /\ (forall x, x ∈ red_team -> (x < nums_population c)%nat)
    /\ (forall x, x ∈ blue_team -> (x < nums_population c)%nat)
    /\ (forall x, x ∈ red_team -> x ∉ blue_team)
    /\ same_records c s (after round)
    /\ length (winner_list round) = nums_comp_pairs c
    /\ length (loser_list round) = nums_comp_pairs c
    /\ (forall i, (i < nums_comp_pairs c)%nat ->
          decided red_team blue_team (performance s)
            (winner_list round) (loser_list round) i)
    /\ hurdle round
       = foldl obj_add (Finite 0)
           (zip_with (lower_objective (performance s))
              red_team blue_team).
Proof.
  intros Hwf Hpairs. unfold tournament.
  destruct (select_teams_spec c (random s) Hpairs)
    as (red_team & blue_team & g & -> & Hr & Hb & Hnr & Hnb
        & Hin_r & Hin_b & Hdisj).
  cbn [mbind result_bind].
  assert (length blue_team = length red_team) as Hlen by congruence.
  assert (same_records c s (set_random g s)) as Hinit.
  { destruct Hwf. by (unfold same_records; split_and!). }
  destruct (compete_loop c red_team blue_team s Hlen Hin_r Hin_b
              {| winner_list := []; loser_list := [];
                 hurdle := Finite 0; after := set_random g s |}
              Hinit eq_refl eq_refl)
    as (round & -> & Hsame & Hw & Hl & Hdecided & Hhurdle).
  cbn [mbind result_bind mret result_ret].
  exists red_team, blue_team, round. rewrite Hr in Hw, Hl, Hdecided.
  by split_and!.
Qed.

(** C3: when [nums_comp_pairs * 2 <= nums_population], on arrays in
    shape and with a mutation function that keeps them in shape, the
    red and the blue team are duplicate-free lists of [nums_comp_pairs]
    indices below [nums_population] with no index in common; the loop
    produces [nums_comp_pairs] winners and as many losers; in pair [i]
    the member with the strictly lower objective is the winner and the
    other one the loser, and on equal objectives the blue member wins.
    Where one of the two objectives is [nan], neither comparison holds
    and the blue member is listed as winner and as loser. *)
Theorem tournament_selection (c : config) (s : store) :
  well_formed c s ->
  (nums_comp_pairs c * 2 <= nums_population c)%nat ->
  exists red_team blue_team round,
    tournament mutate_func c s = Ok (red_team, blue_team, round)
    /\ length red_team = nums_comp_pairs c
    /\ length blue_team = nums_comp_pairs c
    /\ NoDup red_team
    /\ NoDup blue_team
    /\ (forall x, x ∈ red_team -> (x < nums_population c)%nat)
    /\ (forall x, x ∈ blue_team -> (x < nums_population c)%nat)
    /\ (forall x, x ∈ red_team -> x ∉ blue_team)
    /\ length (winner_list round) = nums_comp_pairs c
    /\ length (loser_list round) = nums_comp_pairs c
    /\ (forall i, (i < nums_comp_pairs c)%nat ->
          exists red blue red_perf blue_perf,
            red_team !! i = Some red
            /\ blue_team !! i = Some blue
            /\ performance s !! red = Some red_perf
            /\ performance s !! blue = Some blue_perf
            /\ (obj_ltb red_perf blue_perf = true ->
                 winner_list round !! i = Some red
                 /\ loser_list round !! i = Some blue)
            /\ (obj_ltb blue_perf red_perf = true ->
                 winner_list round !! i = Some blue
                 /\ loser_list round !! i = Some red)
            /\ (obj_eqb red_perf blue_perf = true ->
                 winner_list round !! i = Some blue
                 /\ loser_list round !! i = Some red)
            /\ (red_perf = NaN \/ blue_perf = NaN ->
                 winner_list round !! i = Some blue
                 /\ loser_list round !! i = Some blue)).
Proof.
  intros Hwf Hpairs.
  destruct (tournament_runs c s Hwf Hpairs)
    as (red_team & blue_team & round & Hrun & Hr & Hb & Hnr & Hnb
        & Hin_r & Hin_b & Hdisj & _ & Hw & Hl & Hdecided & _).
  exists red_team, blue_team, round. split_and!; try done.
  intros i Hi.
  destruct (Hdecided i Hi)
    as (r & b & rp & bp & ? & ? & ? & ? & Hwin & Hlose).
  exists r, b, rp, bp. split_and!; try done.
  - intros Hlt. apply obj_ltb_geb in Hlt as Hge.
    by rewrite Hlt in Hwin; rewrite Hge in Hlose.
  - intros Hlt. apply obj_ltb_asym in Hlt as [Hlt' Hge].
    by rewrite Hlt' in Hwin; rewrite Hge in Hlose.
  - intros Htie. apply obj_ltb_tie in Htie as [Hlt Hge].
    by rewrite Hlt in Hwin; rewrite Hge in Hlose.
  - intros Hnan. apply obj_nan in Hnan as [Hlt Hge].
    by rewrite Hlt in Hwin; rewrite Hge in Hlose.
Qed.

End Tournament.

Lemma tournament_selection_witness :
  exists red_team blue_team round,
    tournament copy_mutate six_config six_store
    = Ok (red_team, blue_team, round)
    /\ red_team = [0; 1; 2]%nat
    /\ blue_team = [3; 4; 5]%nat
    /\ performance six_store
       = [Finite 3; Finite 1; Finite 5; Finite 2; Finite 2; Finite 5]
    /\ winner_list round = [3; 1; 5]%nat
    /\ loser_list round = [0; 4; 2]%nat.
Proof.
  destruct (tournament_selection copy_mutate copy_mutate_shape
              six_config six_store six_well_formed)
    as (red_team & blue_team & round & Hrun & _); [simpl; lia|].
  exists red_team, blue_team, round. split; [exact Hrun|].
  vm_compute in Hrun. injection Hrun as <- <- <-.
  by split_and!.
Defined.

Lemma for_each_invariant {A B : Type} (P : A -> Prop)
    (body : A -> B -> result A) (l : list B) :
  (forall acc x acc', x ∈ l -> P acc -> body acc x = Ok acc' -> P acc') ->
  forall acc r, P acc -> for_each body acc l = Ok r -> P r.
Proof.
  induction l as [|x l IH]; intros Hbody acc r Hacc; simpl.
  - by intros [= <-].
  - destruct (body acc x) as [acc'|e] eqn:Hx; simpl; [|done].
    apply IH.
    + intros acc1 y acc2 Hy. apply Hbody. by right.
    + eapply Hbody; [by left|done..].
Qed.

Lemma array_set_Ok {A : Type} (a a' : list A) (i : nat) (x : A) :
  array_set a i x = Ok a' -> (i < length a)%nat /\ a' = <[i:=x]> a.
Proof. unfold array_set. case_decide; [|done]. by intros [= <-]. Qed.

Lemma fill_point_fidelity (c : config) (rung : list trial) (i : nat)
    (s : store) (point point' : list Q) :
  fill_point c rung i s point = Ok point' ->
  carries_fidelity c rung i point'.
Proof.
  unfold fill_point, array_get.
  destruct (rung !! i) as [t|] eqn:Ht; simpl; [|done].
  destruct (t.2 !! fidelity_index c) as [v|] eqn:Hv; simpl; [|done].
  destruct (array_set point (fidelity_index c) v) as [point0|] eqn:Hset;
    simpl; [|done].
  apply array_set_Ok in Hset as [Hlt ->].
  intros Hloop. exists t, v. split_and!; try done.
  eapply (for_each_invariant (fun p => p !! fidelity_index c = Some v));
    [| |exact Hloop].
  - intros acc j acc' Hj Hacc.
    apply list_elem_of_filter in Hj as [Hne _].
    destruct (space c !! j) as [ty|]; simpl; [|done].
    destruct (dict_get (population s) j) as [column|]; simpl; [|done].
    destruct (column !! i) as [value|]; simpl; [|done].
    intros Hset.
    assert (exists x, array_set acc j x = Ok acc') as [x Hx].
    { destruct ty; eauto. }
    apply array_set_Ok in Hx as [_ ->].
    by rewrite list_lookup_insert_ne.
  - by apply list_lookup_insert_eq.
Qed.

Section Candidates.

Variable mutate_func :
  config -> gmap nat (list Q) -> rng -> nat -> nat -> Q -> Q ->
  result (gmap nat (list Q) * rng).

Lemma while_true_fidelity (c : config) (rung : list trial) (i : nat)
    (points : list (list Q)) (fuel : nat) :
  forall (point : list Q) (n : nat) (s : store) (point' : list Q)
         (s' : store),
    while_true mutate_func fuel c rung i points point n s
    = Return (point', s') ->
    carries_fidelity c rung i point'.
Proof.
  induction fuel as [|fuel IH]; intros point n s point' s'; simpl; [done|].
  unfold retry_body.
  destruct (fill_point c rung i s point) as [filled|] eqn:Hfill;
    simpl; [|done].
  apply fill_point_fidelity in Hfill.
  destruct (index_of filled points) as [k|]; simpl.
  - destruct (_mutate mutate_func c k i s) as [s1|]; simpl; [|done].
    case_decide; simpl; apply IH.
  - by intros [= <- <-].
Qed.

Lemma build_points_fidelity (fuel : nat) (c : config) (rung : list trial)
    (n : nat) :
  forall (a : nat) (points : list (list Q)) (s : store)
         (points' : list (list Q)) (s' : store),
    length points = a ->
    (forall i point, points !! i = Some point ->
       carries_fidelity c rung i point) ->
    for_each_outcome
      (fun '(points, s) i =>
         let point := replicate (length (space c)) 0%Q in
         '(point, s) ← while_true mutate_func fuel c rung i points point 0 s;
         mret (points ++ [point], s))
      (points, s) (seq a n)
    = Return (points', s') ->
    length points' = (a + n)%nat
    /\ (forall i point, points' !! i = Some point ->
          carries_fidelity c rung i point).
Proof.
  induction n as [|n IH]; intros a points s points' s' Hlen Hpts; simpl.
  - intros [= <- <-]. split; [lia|done].
  - destruct (while_true mutate_func fuel c rung a points
                (replicate (length (space c)) 0%Q) 0 s)
      as [[point s1]| |] eqn:Hloop; simpl; [|done..].
    intros Hrest. apply IH in Hrest as [Hlen' Hpts'].
    + split; [lia|done].
    + rewrite length_app. simpl. lia.
    + intros i pt Hi. apply lookup_app_Some in Hi as [Hi|[Hge Hi]].
      * by apply Hpts.
      * apply list_lookup_singleton_Some in Hi as [Hi <-].
        assert (i = a) as -> by lia.
        by eapply while_true_fidelity.
Qed.

(** C5: in a list returned by [get_candidates], the fidelity slot of
    point [i] holds the fidelity value of the vector of rung entry [i]. *)
Theorem fidelity_slot_kept (fuel : nat) (c : config) (filled : bool)
    (rung : list trial) (s : store) (points : list (list Q)) (s' : store) :
  get_candidates mutate_func fuel c filled rung s = Return (points, s') ->
  points ≠ [] ->
  forall (i : nat) (point : list Q),
    points !! i = Some point ->
    exists (t : trial) (v : Q),
      rung !! i = Some t
      /\ t.2 !! fidelity_index c = Some v
      /\ point !! fidelity_index c = Some v.
Proof.
  unfold get_candidates. destruct filled.
  { by intros [= <- <-]. }
  destruct (load_rung c rung s) as [s1|]; simpl; [|done].
  destruct (tournament mutate_func c s1) as [[[red blue] round]|];
    simpl; [|done].
  destruct (obj_div (hurdle round) (length red)) as [h|]; simpl; [|done].
  unfold build_points. intros Hrun _.
  apply build_points_fidelity in Hrun as [_ Hpts]; [done..|].
  by intros i point Hi.
Qed.

End Candidates.

Lemma fidelity_slot_kept_witness :
  exists (t : trial) (v : Q),
    two_rung !! 1%nat = Some t
    /\ t.2 !! fidelity_index two_config = Some v
    /\ [2; 1]%Q !! fidelity_index two_config = Some v.
Proof.
  eapply (fidelity_slot_kept keep 1 two_config false two_rung
            (two_store []) [[1; 1]; [2; 1]]%Q).
  - vm_compute. reflexivity.
  - done.
  - reflexivity.
Defined.

(** ** The retry loop *)

Lemma two_fill_point (s : store) (point : list Q) :
  population s = two_equal ->
  length point = 2%nat ->
  fill_point two_config two_rung 1 s point = Ok [1; 1]%Q.
Proof.
  intros Hpop Hlen. destruct point as [|x [|y [|? ?]]]; try done.
  unfold fill_point. rewrite Hpop. reflexivity.
Qed.

Lemma two_mutate (s : store) :
  population s = two_equal ->
  _mutate copy_mutate two_config 0 1 s = Ok s.
Proof.
  intros Hpop. unfold _mutate, copy_mutate. rewrite Hpop.
  destruct s as [pop perf hs g w]. simpl in *. subst pop. reflexivity.
Qed.

(** With the duplicate [(1, 1)] already emitted, a pass through the loop
    for rung entry [1] ends where it began, one retry later. *)
Lemma two_retry (s : store) (point : list Q) (n : nat) :
  population s = two_equal ->
  length point = 2%nat ->
  retry_body copy_mutate two_config two_rung 1 [[1; 1]%Q] point n s
  = Ok (Continue [1; 1]%Q (S n)
          (if decide (10 < S n)%nat then log_warning s else s)).
Proof.
  intros Hpop Hlen. unfold retry_body.
  rewrite two_fill_point by done. simpl.
  rewrite two_mutate by done. simpl.
  by case_decide.
Qed.

Lemma two_never_breaks (fuel : nat) :
  forall (s : store) (point : list Q) (n : nat),
    population s = two_equal ->
    length point = 2%nat ->
    while_true copy_mutate fuel two_config two_rung 1 [[1; 1]%Q] point n s
    = OutOfFuel.
Proof.
  induction fuel as [|fuel IH]; intros s point n Hpop Hlen; [done|].
  simpl. rewrite two_retry by done. apply IH; [|done].
  by case_decide.
Qed.

(** After the tenth retry every further pass logs the warning again. *)
Lemma two_warns_every_pass (k : nat) :
  forall (s : store) (n : nat),
    population s = two_equal ->
    exists s',
      passes k two_config two_rung 1 [[1; 1]%Q] [1; 1]%Q n s
      = Ok (Continue [1; 1]%Q (n + k) s')
      /\ population s' = two_equal
      /\ warnings s' = (warnings s + (Nat.max (n + k) 10 - Nat.max n 10))%nat.
Proof.
  induction k as [|k IH]; intros s n Hpop.
  - exists s. simpl. rewrite Nat.add_0_r. split_and!; try done. lia.
  - simpl. rewrite two_retry by done.
    destruct (IH (if decide (10 < S n)%nat then log_warning s else s) (S n))
      as (s' & -> & Hpop' & Hwarn).
    { by case_decide. }
    exists s'. replace (n + S k)%nat with (S n + k)%nat by lia.
    split_and!; try done. rewrite Hwarn. case_decide; simpl; lia.
Qed.

Lemma draw_one (pool : list nat) (g : rng) :
  draw 1 pool g
  = match pool !! (hd O g mod length pool)%nat with
    | Some x => ([x], tl g)
    | None => ([], g)
    end.
Proof. rewrite draw_S. cbv zeta. by destruct (pool !! _). Qed.

Lemma two_teams (g : rng) :
  select_teams two_config g = Ok ([0%nat], [1%nat], tl (tl g))
  \/ select_teams two_config g = Ok ([1%nat], [0%nat], tl (tl g)).
Proof.
  unfold select_teams, np_random_choice.
  change (nums_comp_pairs two_config) with 1%nat.
  change (seq 0 (nums_population two_config)) with [0%nat; 1%nat].
  rewrite decide_True by (simpl; lia). rewrite draw_one.
  change (length [0%nat; 1%nat]) with 2%nat.
  pose proof (Nat.mod_upper_bound (hd O g) 2) as Hlt.
  destruct (hd O g mod 2)%nat as [|[|i]] eqn:Hi; [| |lia].
  - left. reflexivity.
  - right. reflexivity.
Qed.

Lemma two_tournament (g : rng) :
  exists red_team blue_team round,
    tournament copy_mutate two_config
      {| population := {[ O := [1; 2]%Q ]};
         performance := [Finite (1 # 2); Finite (7 # 10)];
         hurdles := []; random := g; warnings := 0 |}
    = Ok (red_team, blue_team, round)
    /\ length red_team = 1%nat
    /\ population (after round) = two_equal.
Proof.
  unfold tournament. simpl random.
  destruct (two_teams g) as [-> | ->]; eexists _, _, _;
    (split; [reflexivity|done]).
Qed.

Lemma two_first_point (fuel : nat) (s : store) :
  population s = two_equal ->
  while_true copy_mutate (S fuel) two_config two_rung 0 []
    (replicate (length (space two_config)) 0%Q) 0 s
  = Return ([1; 1]%Q, s).
Proof.
  intros Hpop. simpl. unfold retry_body, fill_point. rewrite Hpop.
  reflexivity.
Qed.

Lemma two_build_points (fuel : nat) (s : store) :
  population s = two_equal ->
  build_points copy_mutate fuel two_config two_rung s = OutOfFuel.
Proof.
  intros Hpop. unfold build_points.
  change (seq 0 (population_range two_config two_rung))
    with [0%nat; 1%nat].
  destruct fuel as [|fuel]; [done|].
  cbn [for_each_outcome]. rewrite two_first_point by done.
  cbn [mbind mret outcome_bind outcome_ret app].
  rewrite two_never_breaks; done.
Qed.

(** C1, as the code runs: for the population of two, with the mutation
    function that copies the winner, [get_candidates] does not return on
    any amount of fuel, whatever the state of the random generator.  The
    second point duplicates the first, each retry rebuilds the same
    point, and the test [nums_all_equal > 10] logs the warning without
    leaving the loop. *)
Theorem duplicate_retry_never_ends (g : rng) (fuel : nat) :
  get_candidates copy_mutate fuel two_config false two_rung (two_store g)
  = OutOfFuel.
Proof.
  unfold get_candidates.
  change (load_rung two_config two_rung (two_store g))
    with (Ok {| population := {[ O := [1; 2]%Q ]};
                performance := [Finite (1 # 2); Finite (7 # 10)];
                hurdles := []; random := g; warnings := 0 |}).
  cbn [lift mbind outcome_bind].
  destruct (two_tournament g) as (red & blue & round & -> & Hred & Hpop).
  cbn [lift mbind outcome_bind]. rewrite Hred.
  destruct (hurdle round); cbn [obj_div lift mbind outcome_bind];
    by apply two_build_points.
Qed.

(** ** The constructors *)

(** X3: [nums_mutate_gene] is at least [1], and with two dimensions or
    more it does not exceed the number of non-fidelity dimensions. *)
Theorem nums_mutate_gene_bounds (space : list type_name) :
  (1 <= nums_mutate_gene space)%Z
  /\ ((2 <= length space)%nat ->
      (nums_mutate_gene space <= Z.of_nat (length space) - 1)%Z).
Proof.
  unfold nums_mutate_gene. cbv zeta.
  set (k := (Z.of_nat (length space) - 1)%Z).
  case_decide as Hpos; (split; [lia|]); [|subst k; lia].
  - intros Hlen.
    assert (0 <= inject_Z k * (3 # 10))%Q as Hnonneg.
    { apply Qmult_le_0_compat; [|done].
      change 0%Q with (inject_Z 0). rewrite <- Zle_Qle. lia. }
    unfold py_int. apply Qle_bool_iff in Hnonneg as ->.
    assert (inject_Z k * (3 # 10) <= inject_Z k)%Q as Hle.
    { assert (0 <= inject_Z k)%Q.
      { change 0%Q with (inject_Z 0). rewrite <- Zle_Qle. lia. }
      lra. }
    apply Qfloor_resp_le in Hle. by rewrite Qfloor_Z in Hle.
Qed.

Lemma init_population_lookup (fidelity_index nums_population : nat)
    (keys : list nat) :
  forall (d : gmap nat (list Q)) (j : nat),
    foldl
      (fun population key =>
         if decide (key = fidelity_index) then population
         else <[key := replicate nums_population (-1)%Q]> population)
      d keys !! j
    = if decide (j ∈ keys /\ j ≠ fidelity_index)
      then Some (replicate nums_population (-1)%Q)
      else d !! j.
Proof.
  induction keys as [|key keys IH]; intros d j; cbn [foldl].
  - destruct (decide _) as [[Hin _]|_]; [|done]. by apply elem_of_nil in Hin.
  - rewrite IH.
    destruct (decide (j ∈ keys /\ j ≠ fidelity_index)) as [Hj|Hj];
      destruct (decide (j ∈ key :: keys /\ j ≠ fidelity_index)) as [Hj'|Hj'].
    + done.
    + exfalso. apply Hj'. split; [right|]; tauto.
    + destruct Hj' as [Hin Hne].
      apply elem_of_cons in Hin as [->|Hin]; [|tauto].
      rewrite decide_False by done. by rewrite lookup_insert_eq.
    + destruct (decide (key = fidelity_index)) as [->|Hkey]; [done|].
      rewrite lookup_insert_ne; [done|]. intros ->. apply Hj'.
      split; [left|done].
Qed.

(** X4: the state that the constructors set up.  There is a column of
    [nums_population] slots, all [-1], for every dimension index other
    than [fidelity_index] and for no other key; the performance array
    has [nums_population] entries; and twice the pair count does not
    exceed the population, so the two teams can always be drawn. *)
Theorem init_well_formed (space : list type_name)
    (fidelity_index nums_population : nat) (mutate : option (Q * Q))
    (seed : rng) :
  let '(c, s) :=
    EvolutionES_init space fidelity_index nums_population mutate seed in
  well_formed c s
  /\ (nums_comp_pairs c * 2 <= nums_population)%nat
  /\ (nums_population <= nums_comp_pairs c * 2 + 1)%nat
  /\ (forall j : nat,
        population s !! j
        = if decide ((j < length space)%nat /\ j ≠ fidelity_index)
          then Some (replicate nums_population (-1)%Q)
          else None).
Proof.
  unfold EvolutionES_init. cbv zeta.
  assert (forall j : nat,
            init_population (length space) fidelity_index nums_population
              !! j
            = if decide ((j < length space)%nat /\ j ≠ fidelity_index)
              then Some (replicate nums_population (-1)%Q)
              else None) as Hlookup.
  { intros j. unfold init_population. rewrite init_population_lookup.
    rewrite lookup_empty.
    destruct (decide (j ∈ seq 0 (length space) /\ j ≠ fidelity_index))
      as [[Hin Hne]|Hno].
    - apply elem_of_seq in Hin. by rewrite decide_True by lia.
    - rewrite decide_False; [done|]. intros [Hlt Hne]. apply Hno.
      split; [|done]. apply elem_of_seq. lia. }
  split_and!.
  - split; simpl.
    + intros j Hj. apply elem_of_search_space in Hj. simpl in Hj.
      exists (replicate nums_population (-1)%Q). rewrite Hlookup.
      rewrite decide_True by done. by rewrite length_replicate.
    + by rewrite length_replicate.
  - cbn [nums_comp_pairs].
    pose proof (Nat.div_mod_eq nums_population 2).
    pose proof (Nat.mod_upper_bound nums_population 2). lia.
  - cbn [nums_comp_pairs].
    pose proof (Nat.div_mod_eq nums_population 2).
    pose proof (Nat.mod_upper_bound nums_population 2). lia.
  - done.
Qed.

(** ** [copy_winner] *)

(** X5: on a population in shape and two slots below
    [nums_population], [copy_winner] returns; afterwards the loser's slot
    of every non-fidelity column holds the winner's value, every other
    slot and every other key is as before, and the columns keep their
    length. *)
Theorem copy_winner_copies (c : config) (winner_id loser_id : nat)
    (p : gmap nat (list Q)) :
  shaped c p ->
  (winner_id < nums_population c)%nat ->
  (loser_id < nums_population c)%nat ->
  exists p',
    copy_winner c winner_id loser_id p = Ok p'
    /\ shaped c p'
    /\ (forall key column, key ∈ search_space_remove_fidelity c ->
          p !! key = Some column ->
          exists column',
            p' !! key = Some column'
            /\ column' !! loser_id = column !! winner_id
            /\ (forall i, i ≠ loser_id -> column' !! i = column !! i))
    /\ (forall key, key ∉ search_space_remove_fidelity c ->
          p' !! key = p !! key).
Proof.
  intros Hshaped Hw Hl.
  destruct (copy_winner_loop c winner_id loser_id p Hshaped Hw Hl)
    as (p' & Hrun & Hsh & Hset & Hframe).
  exists p'. split_and!; try done.
  intros key column Hkey Hcol.
  destruct (Hset key column Hkey Hcol) as (value & Hvalue & Hnew).
  destruct (Hshaped key Hkey) as (column' & Hcol' & Hlen).
  assert (column' = column) as -> by congruence.
  eexists. split; [done|]. split.
  - rewrite list_lookup_insert_eq by lia. done.
  - intros i Hi. by rewrite list_lookup_insert_ne.
Qed.

Lemma copy_winner_copies_witness :
  exists p',
    copy_winner two_config 0 1 {[ O := [1; 2]%Q ]} = Ok p'
    /\ shaped two_config p'
    /\ (forall key column, key ∈ search_space_remove_fidelity two_config ->
          ({[ O := [1; 2]%Q ]} : gmap nat (list Q)) !! key = Some column ->
          exists column',
            p' !! key = Some column'
            /\ column' !! 1%nat = column !! 0%nat
            /\ (forall i, i ≠ 1%nat -> column' !! i = column !! i))
    /\ (forall key, key ∉ search_space_remove_fidelity two_config ->
          p' !! key = ({[ O := [1; 2]%Q ]} : gmap nat (list Q)) !! key).
Proof.
  apply (copy_winner_copies two_config 0 1 {[ O := [1; 2]%Q ]}).
  - intros j Hj. apply elem_of_search_space in Hj. simpl in Hj.
    assert (j = O) as -> by lia. by exists [1; 2]%Q.
  - simpl. lia.
  - simpl. lia.
Defined.

(** X6: with a slot at or beyond [nums_population], and at least one
    non-fidelity dimension, [copy_winner] raises an index error. *)
Theorem copy_winner_out_of_range (c : config) (winner_id loser_id : nat)
    (p : gmap nat (list Q)) :
  shaped c p ->
  search_space_remove_fidelity c ≠ [] ->
  (nums_population c <= winner_id)%nat
  \/ (nums_population c <= loser_id)%nat ->
  copy_winner c winner_id loser_id p = Raise IndexError.
Proof.
  intros Hshaped Hkeys Hout. unfold copy_winner.
  destruct (search_space_remove_fidelity c) as [|key keys] eqn:Hlist;
    [done|].
  destruct (Hshaped key) as (column & Hcol & Hlen).
  { rewrite Hlist. by left. }
  assert ((column ← dict_get p key;
           value ← array_get column winner_id;
           population_set key loser_id value p) = Raise IndexError)
    as Hfirst.
  { unfold population_set, dict_get, array_get, array_set. rewrite Hcol.
    cbn [mbind result_bind].
    destruct (column !! winner_id) as [value|] eqn:Hvalue; [|done].
    apply lookup_lt_Some in Hvalue. cbn [mbind result_bind].
    rewrite decide_False by lia. done. }
  cbn [for_each]. by rewrite Hfirst.
Qed.

Lemma copy_winner_out_of_range_witness :
  copy_winner two_config 0 2 {[ O := [1; 2]%Q ]} = Raise IndexError.
Proof.
  apply (copy_winner_out_of_range two_config 0 2 {[ O := [1; 2]%Q ]}).
  - intros j Hj. apply elem_of_search_space in Hj. simpl in Hj.
    assert (j = O) as -> by lia. by exists [1; 2]%Q.
  - done.
  - right. simpl. lia.
Defined.

(** ** Loading a rung *)







(** ** The points handed back *)

(** [tuple(point) in points] is false exactly when no element compares
    equal. *)
Lemma index_of_None (point : list Q) (points : list (list Q)) :
  index_of point points = None
  <-> forall other, other ∈ points -> point_eqb point other = false.
Proof.
  induction points as [|other points IH]; simpl.
  - split; [|done]. intros _ other Hin. by apply elem_of_nil in Hin.
  - destruct (point_eqb point other) eqn:Heq.
    + split; [done|]. intros Hall.
      rewrite (Hall other) in Heq by (by left). done.
    + rewrite fmap_None, IH. split.
      * intros Hall x Hx. apply elem_of_cons in Hx as [->|Hx]; auto.
      * intros Hall x Hx. apply Hall. by right.
Qed.


(** The value that line 225 or line 227 stores for a dimension of type
    [type]. *)
Lemma fill_point_slots (c : config) (rung : list trial) (i : nat)
    (s : store) (point point' : list Q) :
  fill_point c rung i s point = Ok point' ->
  length point' = length point
  /\ forall j, j ∈ search_space_remove_fidelity c ->
       exists type column value,
         space c !! j = Some type
         /\ population s !! j = Some column
         /\ column !! i = Some value
         /\ point' !! j
            = Some (match type with
                    | integer | categorical => inject_Z (py_int value)
                    | _ => value
                    end).
Proof.
  unfold fill_point, array_get.
  destruct (rung !! i) as [t|] eqn:Ht; simpl; [|done].
  destruct (t.2 !! fidelity_index c) as [v|] eqn:Hv; simpl; [|done].
  destruct (array_set point (fidelity_index c) v) as [point0|] eqn:Hset;
    simpl; [|done].
  apply array_set_Ok in Hset as [Hlt ->].
  intros Hloop.
  apply (for_each_prefix
           (fun done p =>
              length p = length point
              /\ forall j, j ∈ done ->
                   exists type column value,
                     space c !! j = Some type
                     /\ population s !! j = Some column
                     /\ column !! i = Some value
                     /\ p !! j
                        = Some (match type with
                                | integer | categorical =>
                                    inject_Z (py_int value)
                                | _ => value
                                end))) in Hloop; [done| |].
  - intros done j rest p p' Hsplit [Hlen Hdone].
    assert (j ∉ done) as Hfresh.
    { pose proof (NoDup_search_space c) as Hnodup.
      rewrite Hsplit in Hnodup.
      apply NoDup_app in Hnodup as (_ & Hdisj & _).
      intros Hin. apply (Hdisj j Hin). by left. }
    destruct (space c !! j) as [type|] eqn:Htype; simpl; [|done].
    unfold dict_get.
    destruct (population s !! j) as [column|] eqn:Hcol; simpl; [|done].
    destruct (column !! i) as [value|] eqn:Hvalue; simpl; [|done].
    set (x := match type with
              | integer | categorical => inject_Z (py_int value)
              | _ => value
              end).
    intros Hset.
    assert (array_set p j x = Ok p') as Hx.
    { subst x. by destruct type. }
    apply array_set_Ok in Hx as [Hj ->].
    split; [by rewrite length_insert|].
    intros j' Hj'.
    apply elem_of_app in Hj' as [Hin|Hin%list_elem_of_singleton].
    + destruct (Hdone j' Hin) as (ty & col & val & ? & ? & ? & ?).
      exists ty, col, val. split_and!; try done.
      rewrite list_lookup_insert_ne by (intros ->; done). done.
    + subst j'. exists type, column, value. split_and!; try done.
      by apply list_lookup_insert_eq.
  - split; [by rewrite length_insert|].
    intros j Hj. by apply elem_of_nil in Hj.
Qed.

Section Points.

Variable mutate_func :
  config -> gmap nat (list Q) -> rng -> nat -> nat -> Q -> Q ->
  result (gmap nat (list Q) * rng).

(** The loop is left by [break] alone: with a point filled from the
    store of that moment and equal to none of the points before it. *)
Lemma while_true_break (c : config) (rung : list trial) (i : nat)
    (points : list (list Q)) (fuel : nat) :
  forall (point : list Q) (n : nat) (s : store) (point' : list Q)
         (s' : store),
    while_true mutate_func fuel c rung i points point n s
    = Return (point', s') ->
    exists point0,
      length point0 = length point
      /\ fill_point c rung i s' point0 = Ok point'
      /\ index_of point' points = None.
Proof.
  induction fuel as [|fuel IH]; intros point n s point' s'; simpl; [done|].
  unfold retry_body.
  destruct (fill_point c rung i s point) as [filled|] eqn:Hfill;
    simpl; [|done].
  destruct (index_of filled points) as [k|] eqn:Hindex; simpl.
  - destruct (_mutate mutate_func c k i s) as [s1|]; simpl; [|done].
    apply fill_point_slots in Hfill as [Hlen _].
    case_decide; simpl; intros Hrun;
      apply IH in Hrun as (point0 & ? & ? & ?);
      exists point0; split_and!; congruence.
  - intros [= <- <-]. by exists point.
Qed.

(** Lines 214-239, point by point. *)
Lemma build_points_loop (fuel : nat) (c : config) (rung : list trial)
    (P : nat -> list Q -> Prop) :
  (forall i points point0 point' s',
     length points = i ->
     length point0 = length (space c) ->
     fill_point c rung i s' point0 = Ok point' ->
     index_of point' points = None ->
     P i point') ->
  forall (n a : nat) (points : list (list Q)) (s : store)
         (points' : list (list Q)) (s' : store),
    length points = a ->
    distinct points ->
    (forall i point, points !! i = Some point -> P i point) ->
    for_each_outcome
      (fun '(points, s) i =>
         let point := replicate (length (space c)) 0%Q in
         '(point, s) ← while_true mutate_func fuel c rung i points point 0 s;
         mret (points ++ [point], s))
      (points, s) (seq a n)
    = Return (points', s') ->
    length points' = (a + n)%nat
    /\ distinct points'
    /\ (forall i point, points' !! i = Some point -> P i point).
Proof.
  intros HP.
  induction n as [|n IH]; intros a points s points' s' Hlen Hdist Hpts; simpl.
  - intros [= <- <-]. split; [lia|done].
  - destruct (while_true mutate_func fuel c rung a points
                (replicate (length (space c)) 0%Q) 0 s)
      as [[point s1]| |] eqn:Hloop; simpl; [|done..].
    apply while_true_break in Hloop as (point0 & Hlen0 & Hfill & Hnew).
    rewrite length_replicate in Hlen0.
    intros Hrest. apply IH in Hrest as (Hlen' & Hdist' & Hpts').
    + split; [lia|done].
    + rewrite length_app. simpl. lia.
    + intros i j earlier later Hij Hi Hj.
      apply lookup_app_Some in Hj as [Hj|[Hge Hj]].
      * apply (Hdist i j); try done.
        apply lookup_lt_Some in Hj.
        by rewrite lookup_app_l in Hi by lia.
      * apply list_lookup_singleton_Some in Hj as [Hj <-].
        rewrite lookup_app_l in Hi by lia.
        rewrite index_of_None in Hnew. apply Hnew.
        by eapply list_elem_of_lookup_2.
    + intros i pt Hi. apply lookup_app_Some in Hi as [Hi|[Hge Hi]].
      * by apply Hpts.
      * apply list_lookup_singleton_Some in Hi as [Hi <-].
        assert (i = a) as -> by lia.
        by eapply HP.
Qed.

Lemma get_candidates_points (fuel : nat) (c : config) (filled : bool)
    (rung : list trial) (s : store) (points : list (list Q)) (s' : store)
    (P : nat -> list Q -> Prop) :
  (forall i points point0 point' s',
     length points = i ->
     length point0 = length (space c) ->
     fill_point c rung i s' point0 = Ok point' ->
     index_of point' points = None ->
     P i point') ->
  get_candidates mutate_func fuel c filled rung s = Return (points, s') ->
  (if filled then points = []
   else length points = population_range c rung)
  /\ distinct points
  /\ (forall i point, points !! i = Some point -> P i point).
Proof.
  intros HP. unfold get_candidates. destruct filled.
  { intros [= <- <-]. split_and!; [done|..].
    - by intros i j ? ? _ Hi.
    - by intros i ? Hi. }
  destruct (load_rung c rung s) as [s1|]; simpl; [|done].
  destruct (tournament mutate_func c s1) as [[[red blue] round]|];
    simpl; [|done].
  destruct (obj_div (hurdle round) (length red)) as [h|]; simpl; [|done].
  unfold build_points. intros Hrun.
  eapply (build_points_loop fuel c rung P HP) in Hrun
    as (Hlen & Hdist & Hpts); [|done| |].
  - by split_and!.
  - by intros i j ? ? _ Hi.
  - by intros i ? Hi.
Qed.

(** X8: no two points of a list returned by [get_candidates] are equal
    as tuples, whatever the mutation function does. *)
Theorem candidates_are_distinct (fuel : nat) (c : config) (filled : bool)
    (rung : list trial) (s : store) (points : list (list Q)) (s' : store) :
  get_candidates mutate_func fuel c filled rung s = Return (points, s') ->
  forall (i j : nat) (earlier later : list Q),
    (i < j)%nat ->
    points !! i = Some earlier ->
    points !! j = Some later ->
    point_eqb later earlier = false.
Proof.
  intros Hrun.
  apply (get_candidates_points _ _ _ _ _ _ _ (fun _ _ => True)) in Hrun
    as (_ & Hdist & _); done.
Qed.

(** X9: a list returned by [get_candidates] with the next rung not
    filled has one point for each of the first [nums_population] entries
    of the rung; each point has one slot per dimension, and its slot for
    a non-fidelity dimension of type integer or categorical holds a whole
    number. *)
Theorem candidates_shape (fuel : nat) (c : config) (rung : list trial)
    (s : store) (points : list (list Q)) (s' : store) :
  get_candidates mutate_func fuel c false rung s = Return (points, s') ->
  length points = (nums_population c `min` length rung)%nat
  /\ forall point, point ∈ points ->
       length point = length (space c)
       /\ forall j type,
            space c !! j = Some type ->
            j ≠ fidelity_index c ->
            type = integer \/ type = categorical ->
            exists z : Z, point !! j = Some (inject_Z z).
Proof.
  intros Hrun.
  apply (get_candidates_points _ _ _ _ _ _ _
           (fun _ point =>
              length point = length (space c)
              /\ forall j type,
                   space c !! j = Some type ->
                   j ≠ fidelity_index c ->
                   type = integer \/ type = categorical ->
                   exists z : Z, point !! j = Some (inject_Z z))) in Hrun
    as (Hlen & _ & Hpts).
  - split.
    + rewrite Hlen. unfold population_range. case_decide; lia.
    + intros point Hin. apply list_elem_of_lookup in Hin as [i Hi].
      by apply (Hpts i).
  - intros i points0 point0 point' s0 _ Hlen0 Hfill _.
    apply fill_point_slots in Hfill as [Hlen' Hslots].
    split; [congruence|].
    intros j type Htype Hj Hwhole.
    destruct (Hslots j) as (type' & column & value & Htype' & _ & _ & Hval).
    { apply elem_of_search_space. split; [|done].
      by apply lookup_lt_Some in Htype. }
    assert (type' = type) as -> by congruence.
    exists (py_int value). by destruct Hwhole as [-> | ->].
Qed.

End Points.

Lemma candidates_are_distinct_witness :
  point_eqb [2; 1]%Q [1; 1]%Q = false.
Proof.
  refine (candidates_are_distinct keep 1 two_config false two_rung
            (two_store []) [[1; 1]; [2; 1]]%Q _ _ 0 1 _ _ _ _ _).
  - vm_compute. reflexivity.
  - lia.
  - reflexivity.
  - reflexivity.
Defined.

Lemma candidates_shape_witness :
  length [[1; 1]; [2; 1]]%Q = 2%nat
  /\ forall point, point ∈ [[1; 1]; [2; 1]]%Q ->
       length point = 2%nat
       /\ forall j type,
            space two_config !! j = Some type ->
            j ≠ 1%nat ->
            type = integer \/ type = categorical ->
            exists z : Z, point !! j = Some (inject_Z z).
Proof.
  eapply (candidates_shape keep 1 two_config two_rung (two_store [])
            [[1; 1]; [2; 1]]%Q).
  vm_compute. reflexivity.
Defined.

(** ** A population too small to compete *)



(** ** What [get_candidates] cannot raise *)


Section Safety.

Variable mutate_func :
  config -> gmap nat (list Q) -> rng -> nat -> nat -> Q -> Q ->
  result (gmap nat (list Q) * rng).

Hypothesis mutate_shape : shape_preserving mutate_func.

Variable c : config.




End Safety.


(** ** Winners, losers and the hurdle *)

(** Two lists that pair by pair hold the members of two other lists, in
    one order or the other, hold the same members overall. *)
Lemma swapped_pairs_Permutation (red blue winners losers : list nat) :
  length blue = length red ->
  length winners = length red ->
  length losers = length red ->
  (forall i r b, red !! i = Some r -> blue !! i = Some b ->
     (winners !! i = Some r /\ losers !! i = Some b)
     \/ (winners !! i = Some b /\ losers !! i = Some r)) ->
  winners ++ losers ≡ₚ red ++ blue.
Proof.
  revert blue winners losers.
  induction red as [|r red IH]; intros blue winners losers Hb Hw Hl Hpairs.
  - destruct blue, winners, losers; done.
  - destruct blue as [|b blue], winners as [|w winners],
      losers as [|l losers]; try done.
    simpl in Hb, Hw, Hl.
    assert (winners ++ losers ≡ₚ red ++ blue) as Hrest.
    { apply IH; [lia..|]. intros i r' b' Hr' Hb'.
      apply (Hpairs (S i) r' b'); done. }
    simpl. rewrite <- !Permutation_middle, Hrest.
    destruct (Hpairs O r b eq_refl eq_refl) as [[Hw0 Hl0]|[Hw0 Hl0]];
      simpl in Hw0, Hl0; simplify_eq; [done|apply perm_swap].
Qed.

Section Outcome.

Variable mutate_func :
  config -> gmap nat (list Q) -> rng -> nat -> nat -> Q -> Q ->
  result (gmap nat (list Q) * rng).

Hypothesis mutate_shape : shape_preserving mutate_func.

(** X12: when [nums_comp_pairs * 2 <= nums_population], on arrays in
    shape whose performance holds no [nan] and with a mutation function
    that keeps them in shape, the winners and the losers of a
    tournament are, together, exactly the members of the two teams, and
    no index is listed twice: every drawn slot is a winner or a loser,
    never both. *)
Theorem tournament_partition (c : config) (s : store) :
  well_formed c s ->
  (nums_comp_pairs c * 2 <= nums_population c)%nat ->
  NaN ∉ performance s ->
  exists red_team blue_team round,
    tournament mutate_func c s = Ok (red_team, blue_team, round)
    /\ winner_list round ++ loser_list round ≡ₚ red_team ++ blue_team
    /\ NoDup (winner_list round ++ loser_list round).
Proof.
  intros Hwf Hpairs Hnumbers.
  destruct (tournament_runs mutate_func mutate_shape c s Hwf Hpairs)
    as (red_team & blue_team & round & Hrun & Hr & Hb & Hnr & Hnb
        & _ & _ & Hdisj & _ & Hw & Hl & Hdecided & _).
  exists red_team, blue_team, round. split; [done|].
  assert (winner_list round ++ loser_list round ≡ₚ red_team ++ blue_team)
    as Hperm.
  { apply swapped_pairs_Permutation; [congruence..|].
    intros i r b Hri Hbi.
    destruct (Hdecided i)
      as (r' & b' & rp & bp & ? & ? & Hrp & Hbp & Hwin & Hlose).
    { apply lookup_lt_Some in Hri. lia. }
    simplify_eq. rewrite obj_geb_ltb in Hlose.
    - destruct (obj_ltb rp bp); simpl in Hlose; [by left|by right].
    - intros ->. apply Hnumbers. by eapply list_elem_of_lookup_2.
    - intros ->. apply Hnumbers. by eapply list_elem_of_lookup_2. }
  split; [done|]. rewrite Hperm. apply NoDup_app. split_and!; done.
Qed.


End Outcome.

Lemma six_numbers : NaN ∉ performance six_store.
Proof.
  intros Hin. simpl in Hin.
  repeat (apply elem_of_cons in Hin as [?|Hin]; [done|]).
  by apply elem_of_nil in Hin.
Qed.

Lemma tournament_partition_witness :
  exists red_team blue_team round,
    tournament copy_mutate six_config six_store
    = Ok (red_team, blue_team, round)
    /\ winner_list round ++ loser_list round ≡ₚ red_team ++ blue_team
    /\ NoDup (winner_list round ++ loser_list round).
Proof.
  apply (tournament_partition copy_mutate copy_mutate_shape
           six_config six_store six_well_formed).
  - simpl. lia.
  - apply six_numbers.
Defined.


(** ** The bracket of a point *)

(** X14: an algorithm whose schedule was computed has exactly one
    bracket, which [_get_bracket] returns for every point, except when
    [reduction_factor == 1] and [min_resources] exceeds
    [max_resources]: the schedule then has no line, and [_get_bracket]
    raises an index error. *)
Theorem get_bracket_of_schedule
    (log_quotient : number -> number -> result Z)
    (min_resources max_resources reduction_factor : number)
    (nums_population pairs : Z) (budgets : list (list (Z * Z)))
    (point : list Q) :
  Budgets.compute_budgets log_quotient min_resources max_resources
    reduction_factor nums_population pairs = Ok budgets ->
  (exists line,
     budgets = [line] /\ line ≠ []
     /\ _get_bracket budgets point = Ok line)
  \/ (budgets = []
      /\ _get_bracket budgets point = Raise IndexError
      /\ num_eqb reduction_factor (PyInt 1) = true
      /\ exists lo hi,
           min_resources = PyInt lo /\ max_resources = PyInt hi
           /\ (hi < lo)%Z).
Proof.
  intros Hbudgets.
  apply BudgetsSpec.schedule_lines in Hbudgets
    as [(line & -> & Hline)|(-> & Hone & Hrange)].
  - left. by exists line.
  - right. by split_and!.
Qed.

Lemma get_bracket_of_schedule_witness :
  _get_bracket [[(20, 1); (20, 6); (20, 25); (20, 100)]%Z] [1; 1]%Q
  = Ok [(20, 1); (20, 6); (20, 25); (20, 100)]%Z
  /\ _get_bracket [[(20, 3); (20, 4); (20, 5)]%Z] [1; 1]%Q
     = Ok [(20, 3); (20, 4); (20, 5)]%Z
  /\ _get_bracket [] [1; 1]%Q = Raise IndexError.
Proof.
  split_and!.
  - destruct (get_bracket_of_schedule Budgets.exact_log_quotient
                (PyInt 1) (PyInt 100) (PyInt 4) 20 10
                [[(20, 1); (20, 6); (20, 25); (20, 100)]%Z] [1; 1]%Q
                eq_refl)
      as [(line & Hline & _ & Hget)|(Hnone & _)]; [|done].
    injection Hline as <-. exact Hget.
  - destruct (get_bracket_of_schedule Budgets.exact_log_quotient
                (PyInt 3) (PyInt 5) (PyInt 1) 20 10
                [[(20, 3); (20, 4); (20, 5)]%Z] [1; 1]%Q eq_refl)
      as [(line & Hline & _ & Hget)|(Hnone & _)]; [|done].
    injection Hline as <-. exact Hget.
  - destruct (get_bracket_of_schedule Budgets.exact_log_quotient
                (PyInt 5) (PyInt 3) (PyInt 1) 20 10 [] [1; 1]%Q eq_refl)
      as [(line & Hline & _)|(_ & Hget & _)]; [done|exact Hget].
Defined.

End BracketSpec.

(** * Properties of the transformers *)

Module TransformerSpec.

Import Transformer.
Local Open Scope Z_scope.

(** ** [Enumerate] *)

Lemma map_dict_from_other (categories : list string) (c : string) :
  c ∉ categories ->
  forall (i : nat) (d : gmap string nat),
    map_dict_from i categories d !! c = d !! c.
Proof.
  induction categories as [|cat rest IH]; intros Hc i d; [done|].
  apply not_elem_of_cons in Hc as [Hne Hrest]. simpl.
  rewrite IH by done. by apply lookup_insert_ne.
Qed.

(** A declared category is mapped to an index at which the list holds
    it. *)
Lemma map_dict_from_member (categories : list string) (c : string) :
  c ∈ categories ->
  forall (i : nat) (d : gmap string nat),
    exists j : nat,
      map_dict_from i categories d !! c = Some (i + j)%nat
      /\ categories !! j = Some c.
Proof.
  induction categories as [|cat rest IH]; intros Hc i d.
  - by apply elem_of_nil in Hc.
  - simpl. destruct (decide (c ∈ rest)) as [Hrest|Hrest].
    + destruct (IH Hrest (S i) (<[cat:=i]> d)) as (j & Hj & Hat).
      exists (S j). split; [|done]. rewrite Hj. f_equal. lia.
    + apply elem_of_cons in Hc as [->|Hc]; [|done].
      exists O. split; [|done].
      rewrite map_dict_from_other by done.
      rewrite lookup_insert_eq. f_equal. lia.
Qed.

Lemma Enumerate_transform_member (categories : list string) (c : string) :
  c ∈ categories ->
  exists j : nat,
    Enumerate_transform categories (Cat c) = Ok (Int (Z.of_nat j))
    /\ categories !! j = Some c.
Proof.
  intros Hc. unfold Enumerate_transform, map_dict.
  destruct (map_dict_from_member categories c Hc O ∅) as (j & -> & Hj).
  eauto.
Qed.

Lemma Enumerate_reverse_at (categories : list string) (c : string)
    (j : nat) :
  categories !! j = Some c ->
  Enumerate_reverse categories (Int (Z.of_nat j)) = Ok (Cat c).
Proof.
  intros Hj. unfold Enumerate_reverse, list_item. cbv zeta.
  rewrite !(decide_True (P := 0 <= Z.of_nat j)) by lia.
  by rewrite Nat2Z.id, Hj.
Qed.

(** ** [OneHotEncode] *)

Lemma argmax_from_zeros (k : nat) :
  forall (best_at : nat) (best : Q) (i : nat) (rest : list Q),
    (0 <= best)%Q ->
    argmax_from best_at best i (replicate k 0%Q ++ rest)
    = argmax_from best_at best (i + k) rest.
Proof.
  induction k as [|k IH]; intros best_at best i rest Hbest; simpl.
  - by rewrite Nat.add_0_r.
  - apply Qle_bool_iff in Hbest as Hb. rewrite Hb, IH by done.
    f_equal. lia.
Qed.

Lemma argmax_one_hot (n j : nat) :
  (j < n)%nat ->
  argmax (<[j:=1%Q]> (replicate n 0%Q)) = Ok (Z.of_nat j).
Proof.
  intros Hj. rewrite insert_replicate_lt by done.
  destruct j as [|j]; simpl.
  - rewrite <- (app_nil_r (replicate _ _)).
    by rewrite argmax_from_zeros.
  - rewrite argmax_from_zeros by done. simpl.
    rewrite <- (app_nil_r (replicate _ _)).
    by rewrite argmax_from_zeros.
Qed.

(** For an index below the bound, [reverse] undoes [transform], whether
    the bound is [1], [2] or larger. *)
Lemma OneHotEncode_round_trip (n j : nat) :
  (j < n)%nat ->
  (hot ← OneHotEncode_transform (Z.of_nat n) (Int (Z.of_nat j));
   OneHotEncode_reverse (Z.of_nat n) hot)
  = Ok (Int (Z.of_nat j)).
Proof.
  intros Hj. unfold OneHotEncode_transform.
  rewrite decide_True by lia.
  destruct (decide (Z.of_nat n <= 2)) as [Hsmall|Hlarge]; simpl.
  - unfold OneHotEncode_reverse.
    destruct (decide (Z.of_nat n = 2)) as [Htwo|Hne].
    + assert (j = 0 \/ j = 1)%nat as [-> | ->] by lia; reflexivity.
    + rewrite decide_True by lia. by assert (j = 0)%nat as -> by lia.
  - unfold OneHotEncode_reverse.
    rewrite decide_False by lia. rewrite decide_False by lia.
    unfold one_hot. rewrite decide_True.
    + rewrite !Nat2Z.id, argmax_one_hot by done. reflexivity.
    + rewrite length_insert, length_replicate. lia.
Qed.

(** C6: a category of the declared list, sent through
    [Enumerate.transform], [OneHotEncode.transform],
    [OneHotEncode.reverse] and [Enumerate.reverse], comes back as it
    was; the bound of the encoding is the number of categories, be it
    [1], [2] or more. *)
Theorem enumerate_one_hot_round_trip (categories : list string)
    (c : string) :
  c ∈ categories ->
  let encode := OneHotEncode (Z.of_nat (length categories)) in
  (i ← transform (Enumerate categories) (Cat c);
   hot ← transform encode i;
   i' ← reverse encode hot;
   reverse (Enumerate categories) i')
  = Ok (Cat c).
Proof.
  intros Hc encode. subst encode. cbn [transform reverse].
  destruct (Enumerate_transform_member categories c Hc) as (j & -> & Hj).
  cbn [mbind result_bind]. apply lookup_lt_Some in Hj as Hlt.
  pose proof (OneHotEncode_round_trip (length categories) j Hlt) as Hhot.
  destruct (OneHotEncode_transform _ _) as [hot|];
    cbn [mbind result_bind] in *; [|done].
  rewrite Hhot. cbn [mbind result_bind]. by apply Enumerate_reverse_at.
Qed.

Lemma enumerate_one_hot_round_trip_witness :
  (i ← transform (Enumerate ["a"]) (Cat "a");
   hot ← transform (OneHotEncode 1) i;
   i' ← reverse (OneHotEncode 1) hot;
   reverse (Enumerate ["a"]) i')
  = Ok (Cat "a")
  /\ (i ← transform (Enumerate ["a"; "b"]) (Cat "b");
      hot ← transform (OneHotEncode 2) i;
      i' ← reverse (OneHotEncode 2) hot;
      reverse (Enumerate ["a"; "b"]) i')
     = Ok (Cat "b")
  /\ (i ← transform (Enumerate ["red"; "green"; "blue"]) (Cat "green");
      hot ← transform (OneHotEncode 3) i;
      i' ← reverse (OneHotEncode 3) hot;
      reverse (Enumerate ["red"; "green"; "blue"]) i')
     = Ok (Cat "green").
Proof.
  split_and!.
  - apply (enumerate_one_hot_round_trip ["a"] "a"). set_solver.
  - apply (enumerate_one_hot_round_trip ["a"; "b"] "b"). set_solver.
  - apply (enumerate_one_hot_round_trip ["red"; "green"; "blue"] "green").
    set_solver.
Defined.

(** ** [Quantize] *)

(** An integer of at most 53 bits is a float64. *)
Lemma float64_of_Z_exact (z : Z) :
  - 2 ^ 53 <= z <= 2 ^ 53 -> float64_of_Z z = z.
Proof.
  intros Hz. unfold float64_of_Z. cbv zeta.
  destruct (decide (Z.abs z = 2 ^ 53)) as [Htop|Hbelow].
  - assert (z = 2 ^ 53 \/ z = - 2 ^ 53) as [-> | ->] by lia; reflexivity.
  - rewrite decide_True; [done|].
    destruct (decide (Z.abs z = 0)) as [->|Hpos]; [done|].
    assert (Z.log2 (Z.abs z) < 53); [|lia].
    apply Z.log2_lt_pow2; lia.
Qed.

Lemma int64_of_float_exact (f : Z) :
  - 2 ^ 63 <= f < 2 ^ 63 -> int64_of_float f = f.
Proof. intros Hf. unfold int64_of_float. by rewrite decide_True. Qed.

Lemma int64_of_float_range (f : Z) :
  - 2 ^ 63 <= int64_of_float f < 2 ^ 63.
Proof. unfold int64_of_float. case_decide; lia. Qed.




(** ** [TransformedDimension] *)

(** C8, as the code has it: [__contains__] answers [False] when the
    reverse transformation fails an assertion, and otherwise asks the
    original dimension about the reversed point; any other exception of
    the reverse transformation reaches the caller. *)
Theorem contains_catches_assertions (self : TransformedDimension.t)
    (p : point) :
  match TransformedDimension.reverse self p with
  | Ok orig_point =>
      TransformedDimension.contains self p
      = Ok (contains (TransformedDimension.original_dimension self)
              orig_point)
  | Raise AssertionError => TransformedDimension.contains self p = Ok false
  | Raise e => TransformedDimension.contains self p = Raise e
  end.
Proof.
  unfold TransformedDimension.contains.
  by destruct (TransformedDimension.reverse self p) as [q|[]].
Qed.

(** C8 as stated fails.  [colour] asked for as an integer is enumerated;
    the point [5] is no index of its three categories, the reverse
    transformation raises an index error, and so does [__contains__]. *)
Lemma contains_raises_index_error :
  exists self : TransformedDimension.t,
    wrap_dimension [Some integer] colour = Ok self
    /\ TransformedDimension.reverse self (Int 5) = Raise IndexError
    /\ TransformedDimension.contains self (Int 5) = Raise IndexError.
Proof. eexists. split_and!; reflexivity. Qed.

(** The assertion of [OneHotEncode.reverse] is the case that is caught:
    a code of the wrong width is not contained. *)
Lemma contains_rejects_wrong_width :
  exists self : TransformedDimension.t,
    wrap_dimension [Some real] colour = Ok self
    /\ TransformedDimension.reverse self (Vec [0; 1]%Q)
       = Raise AssertionError
    /\ TransformedDimension.contains self (Vec [0; 1]%Q) = Ok false
    /\ TransformedDimension.contains self (Vec [0; 1; 0]%Q) = Ok true.
Proof. eexists. split_and!; reflexivity. Qed.

(** C9: on a categorical original dimension, whose interval is
    undefined, [interval] returns the pair [(-0.1, 1.1)]; on any other
    dimension it returns the transformed lower and upper bound of the
    original interval. *)
Theorem interval_of_transformed (self : TransformedDimension.t)
    (alpha : Q) :
  let dim := TransformedDimension.original_dimension self in
  interval_as_specified dim ->
  (type dim = categorical ->
   TransformedDimension.interval self alpha
   = Ok (Real (-1 # 10), Real (11 # 10)))
  /\ (type dim ≠ categorical ->
      exists low high,
        interval dim alpha = Ok (low, high)
        /\ TransformedDimension.interval self alpha
           = (low' ← TransformedDimension.transform self low;
              high' ← TransformedDimension.transform self high;
              mret (low', high'))).
Proof.
  intros dim Hspec. specialize (Hspec alpha).
  unfold TransformedDimension.interval. fold dim. split; intros Htype.
  - rewrite decide_True in Hspec by done.
    destruct Hspec as (msg & -> & ->). done.
  - rewrite decide_False in Hspec by done.
    destruct Hspec as (low & high & ->). eauto.
Qed.

Lemma colour_interval_as_specified : interval_as_specified colour.
Proof. intros alpha. simpl. eauto. Qed.

Lemma rate_interval_as_specified : interval_as_specified rate.
Proof. intros alpha. simpl. eauto. Qed.

Lemma interval_of_transformed_witness :
  TransformedDimension.interval
    {| TransformedDimension.transformer :=
         Compose (OneHotEncode 3)
           (Compose (Enumerate (categories colour))
              (Identity (Some categorical)));
       TransformedDimension.original_dimension := colour |} 1
  = Ok (Real (-1 # 10), Real (11 # 10))
  /\ TransformedDimension.interval
       {| TransformedDimension.transformer :=
            Compose Quantize (Identity (Some real));
          TransformedDimension.original_dimension := rate |} 1
     = Ok (Int 0, Int 1).
Proof.
  split.
  - apply interval_of_transformed.
    + apply colour_interval_as_specified.
    + reflexivity.
  - destruct (interval_of_transformed
                {| TransformedDimension.transformer :=
                     Compose Quantize (Identity (Some real));
                   TransformedDimension.original_dimension := rate |} 1
                rate_interval_as_specified) as [_ Hother].
    destruct Hother as (low & high & Hbounds & ->); [done|].
    injection Hbounds as <- <-. reflexivity.
Defined.

(** ** [build_required_space] *)

Lemma wrap_dimension_original (requirements : list (option type_name))
    (dim : Dimension) (wrapped : TransformedDimension.t) :
  wrap_dimension requirements dim = Ok wrapped ->
  TransformedDimension.original_dimension wrapped = dim.
Proof.
  unfold wrap_dimension.
  destruct (for_each _ _ _) as [[transformers type_]|]; simpl; [|done].
  destruct (Compose_init _ _) as [composed|]; simpl; [|done].
  by intros [= <-].
Qed.

Lemma registered_names (requirements : list (option type_name))
    (dims : list Dimension) :
  forall space space' : list TransformedDimension.t,
    for_each
      (fun space dim =>
         wrapped ← wrap_dimension requirements dim;
         register space wrapped)
      space dims
    = Ok space' ->
    TransformedDimension.name <$> space'
    = (TransformedDimension.name <$> space) ++ (name <$> dims).
Proof.
  induction dims as [|dim dims IH]; intros space space'; simpl.
  - intros [= <-]. by rewrite app_nil_r.
  - destruct (wrap_dimension requirements dim) as [wrapped|] eqn:Hwrap;
      simpl; [|done].
    apply wrap_dimension_original in Hwrap.
    unfold register. case_decide; simpl; [done|].
    intros Hrest%IH. rewrite Hrest, fmap_app, <- app_assoc. simpl.
    unfold TransformedDimension.name at 2. by rewrite Hwrap.
Qed.

(** C10: the name of a [TransformedDimension] is the name of the
    dimension it wraps, whatever its transformer; and the space that
    [build_required_space] returns lists the names of the original
    space, in the same order. *)
Theorem names_are_kept :
  (forall (t : transformer) (dim : Dimension),
     TransformedDimension.name
       {| TransformedDimension.transformer := t;
          TransformedDimension.original_dimension := dim |}
     = name dim)
  /\ (forall (requirements : list (option type_name))
             (original_space : list Dimension)
             (space : list TransformedDimension.t),
        build_required_space requirements original_space = Ok space ->
        TransformedDimension.name <$> space = name <$> original_space
        /\ list_to_set (TransformedDimension.name <$> space)
           =@{gset string} list_to_set (name <$> original_space)).
Proof.
  split; [done|].
  intros requirements original_space space Hbuild.
  apply registered_names in Hbuild. simpl in Hbuild.
  by rewrite Hbuild.
Qed.

Lemma names_are_kept_witness :
  exists space : list TransformedDimension.t,
    build_required_space [Some integer; Some real] [colour; rate] = Ok space
    /\ TransformedDimension.name <$> space = ["colour"; "rate"].
Proof.
  eexists. split; [reflexivity|].
  eapply (proj2 names_are_kept [Some integer; Some real] [colour; rate]).
  reflexivity.
Defined.

Import LoopSpec.

(** ** [Compose] *)

Lemma Compose_check_Ok (apply composition t : transformer) :
  Compose_check apply composition = Ok t -> t = Compose apply composition.
Proof.
  unfold Compose_check. destruct (domain_type apply); [case_decide|];
    congruence.
Qed.

(** The composition that [Compose.__init__] has below [apply]. *)
Lemma Compose_pop_cons (apply : transformer) (rest : list transformer)
    (base : option type_name) (t : transformer) :
  Compose_pop (apply :: rest) base = Ok t ->
  exists composition,
    t = Compose apply composition
    /\ match rest with
       | [] => composition = Identity base
       | _ :: _ => Compose_pop rest base = Ok composition
       end.
Proof.
  cbn [Compose_pop]. destruct rest as [|next rest].
  - cbn [mbind result_bind]. intros Hcheck%Compose_check_Ok. eauto.
  - destruct (Compose_pop (next :: rest) base) as [composition|];
      cbn [mbind result_bind]; [|done].
    intros Hcheck%Compose_check_Ok. eauto.
Qed.

Lemma Compose_pop_order (reversed : list transformer)
    (base : option type_name) :
  forall t : transformer,
    Compose_pop reversed base = Ok t ->
    (forall p, transform t p
               = for_each (fun p t => transform t p) p (rev reversed))
    /\ (forall p, reverse t p
                  = for_each (fun p t => reverse t p) p reversed)
    /\ domain_type t = base
    /\ target_type t = chain_target base reversed.
Proof.
  induction reversed as [|apply rest IH]; intros t Ht.
  - apply Compose_check_Ok in Ht as ->. by split_and!.
  - apply Compose_pop_cons in Ht as (composition & -> & Hrest).
    assert ((forall p, transform composition p
                       = for_each (fun p t => transform t p) p (rev rest))
            /\ (forall p, reverse composition p
                          = for_each (fun p t => reverse t p) p rest)
            /\ domain_type composition = base
            /\ target_type composition = chain_target base rest)
      as (Hforward & Hback & Hdomain & Htarget).
    { destruct rest as [|next rest]; [by subst|by apply IH]. }
    split_and!.
    + intros p. cbn [transform rev]. rewrite for_each_app, Hforward.
      destruct (for_each _ p (rev rest)) as [p'|e]; simpl; [|done].
      by destruct (transform apply p').
    + intros p. cbn [reverse for_each].
      destruct (reverse apply p) as [p'|e]; simpl; [apply Hback|done].
    + done.
    + cbn [target_type chain_target]. by rewrite Htarget.
Qed.

(** X15: a [Compose] built from a list of transformers applies them in
    the order of the list going forward and in the opposite order going
    back, failing where the first of them fails; its domain type is the
    base domain type. *)
Theorem compose_order (transformers : list transformer)
    (base_domain_type : option type_name) (t : transformer) :
  Compose_init transformers base_domain_type = Ok t ->
  (forall p, transform t p
             = for_each (fun p t => transform t p) p transformers)
  /\ (forall p, reverse t p
                = for_each (fun p t => reverse t p) p (rev transformers))
  /\ domain_type t = base_domain_type.
Proof.
  unfold Compose_init. intros Ht.
  apply Compose_pop_order in Ht as (Hforward & Hback & Hdomain & _).
  rewrite rev_involutive in Hforward. done.
Qed.

Lemma compose_order_witness :
  (forall p, transform
               (Compose (OneHotEncode 3)
                  (Compose (Enumerate ["red"; "green"; "blue"])
                     (Identity (Some categorical)))) p
             = for_each (fun p t => transform t p) p
                 [Enumerate ["red"; "green"; "blue"]; OneHotEncode 3])
  /\ (forall p, reverse
                  (Compose (OneHotEncode 3)
                     (Compose (Enumerate ["red"; "green"; "blue"])
                        (Identity (Some categorical)))) p
                = for_each (fun p t => reverse t p) p
                    (rev [Enumerate ["red"; "green"; "blue"];
                          OneHotEncode 3]))
  /\ domain_type
       (Compose (OneHotEncode 3)
          (Compose (Enumerate ["red"; "green"; "blue"])
             (Identity (Some categorical))))
     = Some categorical.
Proof.
  apply (compose_order
           [Enumerate ["red"; "green"; "blue"]; OneHotEncode 3]
           (Some categorical)).
  reflexivity.
Defined.

(** ** Building the required space *)

Lemma Compose_pop_Ok (base : option type_name)
    (reversed : list transformer) :
  well_chained base reversed ->
  exists t, Compose_pop reversed base = Ok t.
Proof.
  induction reversed as [|apply rest IH]; intros Hchain.
  - by eexists.
  - destruct Hchain as [Hrest Hdomain]. cbn [Compose_pop].
    assert (exists composition,
              match rest with
              | [] => Ok (Identity base)
              | _ :: _ => Compose_pop rest base
              end = Ok composition
              /\ target_type composition = chain_target base rest)
      as (composition & -> & Htarget).
    { destruct rest as [|next rest]; [by eexists|].
      destruct (IH Hrest) as [composition Hcomposition].
      exists composition. split; [done|].
      by apply Compose_pop_order in Hcomposition as (_ & _ & _ & ?). }
    cbn [mbind result_bind]. unfold Compose_check.
    destruct (domain_type apply) as [domain|] eqn:Hd; [|by eexists].
    destruct Hdomain as [?|Hdomain]; [done|].
    rewrite decide_True by congruence. by eexists.
Qed.

Lemma last_two {A : Type} (l : list A) (x y : A) :
  last (l ++ [x; y]) = Some y.
Proof.
  change (l ++ [x; y]) with (l ++ [x] ++ [y]).
  by rewrite app_assoc, last_snoc.
Qed.

Lemma rev_two {A : Type} (l : list A) (x y : A) :
  rev (l ++ [x; y]) = y :: x :: rev l.
Proof. by rewrite rev_app_distr. Qed.

Lemma requirement_step_Ok (dim : Dimension) (base : option type_name)
    (acc : list transformer * option type_name) (type : type_name)
    (requirement : option type_name) :
  gathered base acc type ->
  requirement ∈ [Some real; Some integer; None] ->
  exists acc',
    requirement_step dim acc requirement = Ok acc'
    /\ gathered base acc' (default type requirement).
Proof.
  destruct acc as [transformers type_].
  intros (Htype & Hsupported & Hchain & Htarget & Hlast) Hrequirement.
  simpl in Htype, Hchain, Htarget, Hlast. subst type_.
  assert (forall t, last transformers = Some t ->
            target_type t ≠ Some invariant) as Hvariant.
  { intros t Ht. rewrite (Hlast t Ht). intros [= ->].
    repeat (apply elem_of_cons in Hsupported as [?|Hsupported]; [done|]).
    by apply elem_of_nil in Hsupported. }
  assert (exists acc',
            (match last transformers with
             | Some t =>
                 let last_type := target_type t in
                 if decide (last_type = Some invariant)
                 then mret (transformers, Some type)
                 else mret (transformers, last_type)
             | None => mret (transformers, Some type)
             end : result _) = Ok acc'
            /\ gathered base acc' type) as Hsame.
  { destruct (last transformers) as [t|] eqn:Ht in |- *.
    - cbv zeta. rewrite decide_False by by apply Hvariant.
      eexists. split; [done|]. rewrite (Hlast t Ht).
      by split_and!.
    - eexists. split; [done|]. by split_and!. }
  repeat (apply elem_of_cons in Hsupported as [->|Hsupported]);
    [..|by apply elem_of_nil in Hsupported];
    (repeat (apply elem_of_cons in Hrequirement as [->|Hrequirement]);
     [..|by apply elem_of_nil in Hrequirement]);
    cbn [requirement_step Reverse_init mbind result_bind mret result_ret
         default from_option id];
    try exact Hsame;
    rewrite ?last_snoc, ?last_two; cbv zeta;
    cbn [target_type domain_type];
    (rewrite decide_False by done);
    (eexists; split; [done|]);
    unfold gathered; cbn [fst snd];
    rewrite ?rev_unit, ?rev_two; cbn [well_chained chain_target
      target_type domain_type];
    split_and!; try done; try (by right);
    try (repeat constructor);
    intros t; rewrite ?last_snoc, ?last_two; by intros [= <-].
Qed.

Lemma requirements_Ok (dim : Dimension) (base : option type_name)
    (requirements : list (option type_name)) :
  Forall (fun r => r ∈ [Some real; Some integer; None]) requirements ->
  forall (acc : list transformer * option type_name) (type : type_name),
    gathered base acc type ->
    exists acc',
      for_each (requirement_step dim) acc requirements = Ok acc'
      /\ gathered base acc' (required_type requirements type).
Proof.
  induction 1 as [|requirement requirements Hr _ IH]; intros acc type Hacc.
  - by exists acc.
  - destruct (requirement_step_Ok dim base acc type requirement Hacc Hr)
      as (acc1 & Hstep & Hacc1).
    cbn [for_each]. rewrite Hstep. cbn [mbind result_bind].
    apply (IH acc1 (default type requirement) Hacc1).
Qed.

Lemma wrap_dimension_Ok (requirements : list (option type_name))
    (dim : Dimension) :
  Forall (fun r => r ∈ [Some real; Some integer; None]) requirements ->
  type dim ∈ [real; integer; categorical] ->
  exists self,
    wrap_dimension requirements dim = Ok self
    /\ TransformedDimension.original_dimension self = dim
    /\ TransformedDimension_type self
       = Some (required_type requirements (type dim)).
Proof.
  intros Hrequirements Hsupported. unfold wrap_dimension. cbv zeta.
  destruct (requirements_Ok dim (Some (type dim)) requirements
              Hrequirements ([], Some (type dim)) (type dim))
    as ([transformers type_] & -> & _ & Hfinal & Hchain & Htarget & _).
  { by split_and!. }
  cbn [mbind result_bind fst snd] in *. unfold Compose_init.
  destruct (Compose_pop_Ok _ _ Hchain) as [composed Hcomposed].
  rewrite Hcomposed. cbn [mbind result_bind mret result_ret].
  eexists. split; [done|]. split; [done|].
  apply Compose_pop_order in Hcomposed as (_ & _ & _ & Htype).
  unfold TransformedDimension_type. cbn. rewrite Htype, Htarget.
  rewrite decide_False; [done|]. intros [= Hinvariant].
  rewrite Hinvariant in Hfinal.
  repeat (apply elem_of_cons in Hfinal as [?|Hfinal]; [done|]).
  by apply elem_of_nil in Hfinal.
Qed.

(** X16: for requirements among real, integer and none, dimensions of
    type real, integer or categorical and names that differ,
    [build_required_space] returns; the space wraps the original
    dimensions one by one, in order, and the type of each wrapped
    dimension is the last type that the requirements name, or the
    original type when they name none. *)
Theorem required_space_types (requirements : list (option type_name))
    (original_space : list Dimension) :
  Forall (fun r => r ∈ [Some real; Some integer; None]) requirements ->
  Forall (fun dim => type dim ∈ [real; integer; categorical])
    original_space ->
  NoDup (name <$> original_space) ->
  exists space,
    build_required_space requirements original_space = Ok space
    /\ Forall2
         (fun dim self =>
            TransformedDimension.original_dimension self = dim
            /\ TransformedDimension_type self
               = Some (required_type requirements (type dim)))
         original_space space.
Proof.
  intros Hrequirements Hsupported Hnames. unfold build_required_space.
  apply (for_each_steps
           (fun done space =>
              Forall2
                (fun dim self =>
                   TransformedDimension.original_dimension self = dim
                   /\ TransformedDimension_type self
                      = Some (required_type requirements (type dim)))
                done space) _ original_space); [|constructor].
  intros done dim rest space Hsplit Hdone.
  destruct (wrap_dimension_Ok requirements dim Hrequirements)
    as (self & -> & Horiginal & Htype).
  { rewrite Forall_forall in Hsupported. apply Hsupported.
    rewrite Hsplit. apply elem_of_app. right. by left. }
  cbn [mbind result_bind]. unfold register.
  assert (TransformedDimension.name <$> space = name <$> done) as Hspace.
  { clear -Hdone. induction Hdone as [|? ? ? ? [<- _] _ IH]; [done|].
    cbn [fmap list_fmap]. f_equal. apply IH. }
  rewrite decide_False.
  - eexists. split; [done|]. apply Forall2_app; [done|].
    by repeat constructor.
  - rewrite Hspace. unfold TransformedDimension.name. rewrite Horiginal.
    rewrite Hsplit, fmap_app in Hnames.
    apply NoDup_app in Hnames as (_ & Hdisjoint & _).
    intros Hin. apply (Hdisjoint _ Hin). by left.
Qed.

Lemma required_space_types_witness :
  exists space,
    build_required_space [Some real] [colour; rate] = Ok space
    /\ Forall2
         (fun dim self =>
            TransformedDimension.original_dimension self = dim
            /\ TransformedDimension_type self
               = Some (required_type [Some real] (type dim)))
         [colour; rate] space.
Proof.
  apply (required_space_types [Some real] [colour; rate]).
  - repeat constructor.
  - repeat constructor.
  - apply (bool_decide_unpack (NoDup (name <$> [colour; rate]))).
    vm_compute. exact I.
Defined.

(** X17: a dimension whose type is neither real, integer nor
    categorical, such as the fidelity, cannot be wrapped: with at least
    one requirement, be it the null requirement, wrapping it raises a
    type error, and so does [build_required_space] once the dimensions
    before it are wrapped. *)
Theorem unsupported_type_raises (requirements : list (option type_name))
    (dim : Dimension) :
  type dim = fidelity \/ type dim = invariant ->
  requirements ≠ [] ->
  wrap_dimension requirements dim = Raise TypeError
  /\ forall before rest space,
       build_required_space requirements before = Ok space ->
       build_required_space requirements (before ++ dim :: rest)
       = Raise TypeError.
Proof.
  intros Htype Hsome.
  assert (wrap_dimension requirements dim = Raise TypeError) as Hwrap.
  { destruct requirements as [|requirement requirements]; [done|].
    unfold wrap_dimension. cbn [for_each].
    assert (requirement_step dim ([], Some (type dim)) requirement
            = Raise TypeError) as ->; [|done].
    unfold requirement_step.
    destruct Htype as [-> | ->]; by destruct requirement as [[]|]. }
  split; [done|]. intros before rest space Hbefore.
  unfold build_required_space in *. rewrite for_each_app, Hbefore.
  cbn [mbind result_bind for_each]. by rewrite Hwrap.
Qed.

Lemma unsupported_type_raises_witness :
  wrap_dimension [None] epoch = Raise TypeError
  /\ forall before rest space,
       build_required_space [None] before = Ok space ->
       build_required_space [None] (before ++ epoch :: rest)
       = Raise TypeError.
Proof.
  apply (unsupported_type_raises [None] epoch).
  - by left.
  - done.
Defined.

(** ** Whole points *)

Lemma list_item_nat {A : Type} (l : list A) (i : nat) (x : A) :
  l !! i = Some x -> list_item l (Z.of_nat i) = Ok x.
Proof.
  intros Hi. unfold list_item. cbv zeta.
  rewrite !(decide_True (P := 0 <= Z.of_nat i)) by lia.
  by rewrite Nat2Z.id, Hi.
Qed.

(** Lines 341 and 347: a point with an entry for every dimension is
    mapped entry by entry. *)
Lemma space_map (f : TransformedDimension.t -> point -> result point)
    (space : list TransformedDimension.t) (pts : list point) :
  (forall i self, space !! i = Some self ->
     exists p p', pts !! i = Some p /\ f self p = Ok p') ->
  exists outs,
    for_list
      (fun '(i, dim) => p ← list_item pts (Z.of_nat i); f dim p)
      (imap pair space)
    = Ok outs
    /\ length outs = length space
    /\ forall i self p,
         space !! i = Some self -> pts !! i = Some p ->
         exists p', outs !! i = Some p' /\ f self p = Ok p'.
Proof.
  intros Hall.
  set (g := fun '(i, dim) =>
         match pts !! i with
         | Some p => match f dim p with Ok p' => p' | Raise _ => p end
         | None => Int 0
         end : point).
  exists (g <$> imap pair space). split_and!.
  - apply for_list_fmap. intros [i self] Hin.
    apply elem_of_lookup_imap in Hin as (i' & self' & [= <- <-] & Hself).
    destruct (Hall i self Hself) as (p & p' & Hp & Hf).
    rewrite (list_item_nat _ _ _ Hp). cbn [mbind result_bind].
    subst g. cbv beta iota. by rewrite Hp, Hf.
  - by rewrite length_fmap, length_imap.
  - intros i self p Hself Hp.
    destruct (Hall i self Hself) as (p0 & p' & Hp0 & Hf).
    assert (p0 = p) as -> by congruence.
    exists p'. split; [|done].
    rewrite list_lookup_fmap, list_lookup_imap, Hself.
    cbn [fmap option_fmap option_map]. subst g. cbv beta iota.
    by rewrite Hp, Hf.
Qed.

(** For the requirement real, a wrapped dimension gives back the points
    of its original dimension. *)
Lemma real_dimension_round_trip (dim : Dimension)
    (self : TransformedDimension.t) (p : point) :
  wrap_dimension [Some real] dim = Ok self ->
  belongs dim p ->
  exists p',
    TransformedDimension.transform self p = Ok p'
    /\ TransformedDimension.reverse self p' = Ok p.
Proof.
  unfold wrap_dimension, belongs, TransformedDimension.transform,
    TransformedDimension.reverse.
  destruct (type dim) eqn:Htype; cbn; try done.
  - intros [= <-] [q ->]. by eexists.
  - intros [= <-] (z & -> & Hz).
    cbn [TransformedDimension.transformer Transformer.transform
         Transformer.reverse Quantize_reverse Quantize_transform
         mbind result_bind].
    rewrite !decide_True by lia. rewrite float64_of_Z_exact by done.
    eexists. split; [done|]. unfold Quantize_transform.
    rewrite Qfloor_Z, int64_of_float_exact by lia. done.
  - intros [= <-] (c & -> & Hc). cbn [TransformedDimension.transformer].
    cbn [Transformer.transform Transformer.reverse mbind result_bind].
    destruct (Enumerate_transform_member (categories dim) c Hc)
      as (j & -> & Hj).
    cbn [mbind result_bind]. apply lookup_lt_Some in Hj as Hlt.
    pose proof (OneHotEncode_round_trip (length (categories dim)) j Hlt)
      as Hhot.
    destruct (OneHotEncode_transform _ _) as [hot|];
      cbn [mbind result_bind] in *; [|done].
    exists hot. split; [done|]. rewrite Hhot. cbn [mbind result_bind].
    by rewrite (Enumerate_reverse_at _ c).
Qed.

Lemma build_wraps (requirements : list (option type_name))
    (original_space : list Dimension) (space : list TransformedDimension.t) :
  build_required_space requirements original_space = Ok space ->
  Forall2 (fun dim self => wrap_dimension requirements dim = Ok self)
    original_space space.
Proof.
  unfold build_required_space. intros Hbuild.
  apply (for_each_prefix
           (fun done space =>
              Forall2
                (fun dim self => wrap_dimension requirements dim = Ok self)
                done space)) in Hbuild; [done| |constructor].
  intros done dim rest acc acc' _ Hdone.
  destruct (wrap_dimension requirements dim) as [self|] eqn:Hwrap;
    cbn [mbind result_bind]; [|done].
  unfold register. case_decide; [done|]. intros [= <-].
  apply Forall2_app; [done|]. by repeat constructor.
Qed.

(** X18: in a space built for the requirement real, a point made of a
    real for every real dimension, an integer that a float64 holds
    exactly (at most [2**53] in absolute value) for every integer
    dimension and a declared category for every categorical dimension
    is transformed, and the reverse of its image is the point itself. *)
Theorem real_space_round_trip (original_space : list Dimension)
    (space : list TransformedDimension.t) (pt : list point) :
  build_required_space [Some real] original_space = Ok space ->
  Forall2 belongs original_space pt ->
  exists transformed,
    TransformedSpace.transform space pt = Ok transformed
    /\ TransformedSpace.reverse space transformed = Ok pt.
Proof.
  intros Hbuild%build_wraps Hpt.
  assert (forall i self, space !! i = Some self ->
            exists p p', pt !! i = Some p
              /\ TransformedDimension.transform self p = Ok p'
              /\ TransformedDimension.reverse self p' = Ok p) as Hall.
  { intros i self Hself.
    destruct (Forall2_lookup_r _ _ _ _ _ Hbuild Hself)
      as (dim & Hdim & Hwrap).
    destruct (Forall2_lookup_l _ _ _ _ _ Hpt Hdim) as (p & Hp & Hbelongs).
    destruct (real_dimension_round_trip dim self p Hwrap Hbelongs)
      as (p' & ? & ?).
    by exists p, p'. }
  destruct (space_map TransformedDimension.transform space pt)
    as (transformed & Hforward & Hlength & Himage).
  { intros i self Hself.
    destruct (Hall i self Hself) as (p & p' & ? & ? & _). by exists p, p'. }
  exists transformed. split; [done|].
  destruct (space_map TransformedDimension.reverse space transformed)
    as (back & Hback & Hlength' & Horigin).
  { intros i self Hself.
    destruct (Hall i self Hself) as (p & p' & Hp & Hf & Hr).
    destruct (Himage i self p Hself Hp) as (p'' & Hp'' & Hf').
    assert (p'' = p') as -> by congruence. by exists p', p. }
  unfold TransformedSpace.reverse. rewrite Hback. f_equal.
  apply list_eq_same_length with (length space); [|done|].
  { apply Forall2_length in Hbuild, Hpt. congruence. }
  intros i x y Hi Hx Hy.
  destruct (lookup_lt_is_Some_2 space i Hi) as [self Hself].
  destruct (Hall i self Hself) as (p & p' & Hp & Hf & Hr).
  destruct (Himage i self p Hself Hp) as (p'' & Hp'' & Hf').
  assert (p'' = p') as -> by congruence.
  destruct (Horigin i self p' Hself Hp'') as (p0 & Hp0 & Hr').
  congruence.
Qed.

Lemma real_space_round_trip_witness :
  exists space transformed,
    build_required_space [Some real] [colour; rate; layers] = Ok space
    /\ TransformedSpace.transform space
         [Cat "green"; Real (1 # 2); Int 9007199254740992]
       = Ok transformed
    /\ TransformedSpace.reverse space transformed
       = Ok [Cat "green"; Real (1 # 2); Int 9007199254740992].
Proof.
  eexists.
  destruct (real_space_round_trip [colour; rate; layers] _
              [Cat "green"; Real (1 # 2); Int 9007199254740992] eq_refl)
    as (transformed & Hforward & Hback).
  - repeat constructor.
    + exists "green". split; [done|]. right. left.
    + by exists (1 # 2)%Q.
    + exists 9007199254740992. split; [done|]. split; discriminate.
  - exists transformed. by split_and!.
Defined.

(** ** What a wrapped categorical dimension contains *)

(** [l[z]] is defined for [-len(l) <= z < len(l)] alone. *)
Lemma list_item_range {A : Type} (l : list A) (z : Z) :
  if decide (- Z.of_nat (length l) <= z < Z.of_nat (length l))
  then exists x, list_item l z = Ok x /\ x ∈ l
  else list_item l z = Raise IndexError.
Proof.
  unfold list_item. cbv zeta.
  destruct (decide (0 <= z)) as [Hz|Hz].
  - rewrite (decide_True (P := 0 <= z)) by done.
    destruct (l !! Z.to_nat z) as [x|] eqn:Hx.
    + apply lookup_lt_Some in Hx as Hlt. rewrite decide_True by lia.
      exists x. split; [done|]. by eapply list_elem_of_lookup_2.
    + apply lookup_ge_None in Hx. by rewrite decide_False by lia.
  - destruct (decide (0 <= Z.of_nat (length l) + z)) as [Hi|Hi].
    + rewrite decide_True by lia.
      destruct (lookup_lt_is_Some_2 l (Z.to_nat (Z.of_nat (length l) + z)))
        as [x Hx]; [lia|].
      rewrite Hx. exists x. split; [done|].
      by eapply list_elem_of_lookup_2.
    + by rewrite decide_False by lia.
Qed.

(** X19: a categorical dimension asked for as an integer contains,
    besides the indices of its categories, the negative integers down to
    minus their number, which index the list from its end; on any other
    integer the containment check raises an index error. *)
Theorem enumerated_contains (dim : Dimension)
    (self : TransformedDimension.t) (z : Z) :
  type dim = categorical ->
  (forall c, c ∈ categories dim -> contains dim (Cat c) = true) ->
  wrap_dimension [Some integer] dim = Ok self ->
  TransformedDimension.contains self (Int z)
  = if decide (- Z.of_nat (length (categories dim)) <= z
               < Z.of_nat (length (categories dim)))
    then Ok true else Raise IndexError.
Proof.
  intros Htype Hdeclared. unfold wrap_dimension. rewrite Htype. cbn.
  intros [= <-].
  unfold TransformedDimension.contains, TransformedDimension.reverse.
  cbn [TransformedDimension.transformer
       TransformedDimension.original_dimension
       Transformer.reverse Enumerate_reverse mbind result_bind].
  pose proof (list_item_range (categories dim) z) as Hitem.
  case_decide.
  - destruct Hitem as (c & -> & Hc). cbn [mbind result_bind mret result_ret].
    by rewrite Hdeclared.
  - by rewrite Hitem.
Qed.

Lemma enumerated_contains_witness :
  TransformedDimension.contains
    {| TransformedDimension.transformer :=
         Compose (Enumerate ["red"; "green"; "blue"])
           (Identity (Some categorical));
       TransformedDimension.original_dimension := colour |}
    (Int (-1))
  = Ok true.
Proof.
  apply (enumerated_contains colour _ (-1)).
  - reflexivity.
  - intros c Hc. simpl. by apply bool_decide_eq_true.
  - reflexivity.
Defined.

Lemma argmax_from_lt (v : list Q) :
  forall (best_at : nat) (best : Q) (i : nat),
    (best_at < i)%nat ->
    (argmax_from best_at best i v < i + length v)%nat.
Proof.
  induction v as [|x v IH]; intros best_at best i Hlt; simpl; [lia|].
  destruct (Qle_bool x best).
  - specialize (IH best_at best (S i)). lia.
  - specialize (IH i x (S i)). lia.
Qed.

(** X20: a categorical dimension asked for as a real contains every
    point of the encoded shape, whatever its values: every real when it
    has one or two categories, and every vector with one entry per
    category when it has more. *)
Theorem encoded_contains (dim : Dimension)
    (self : TransformedDimension.t) (p : point) :
  type dim = categorical ->
  categories dim ≠ [] ->
  (forall c, c ∈ categories dim -> contains dim (Cat c) = true) ->
  wrap_dimension [Some real] dim = Ok self ->
  (if decide (2 < length (categories dim))%nat
   then exists v, p = Vec v /\ length v = length (categories dim)
   else exists q, p = Real q) ->
  TransformedDimension.contains self p = Ok true.
Proof.
  intros Htype Hsome Hdeclared. unfold wrap_dimension. rewrite Htype. cbn.
  intros [= <-] Hshape.
  unfold TransformedDimension.contains, TransformedDimension.reverse.
  cbn [TransformedDimension.transformer
       TransformedDimension.original_dimension
       Transformer.reverse mbind result_bind].
  assert (exists i : nat,
            OneHotEncode_reverse (Z.of_nat (length (categories dim))) p
            = Ok (Int (Z.of_nat i))
            /\ (i < length (categories dim))%nat) as (i & -> & Hi).
  { unfold OneHotEncode_reverse.
    assert (0 < length (categories dim))%nat as Hpos.
    { destruct (categories dim); [done|simpl; lia]. }
    case_decide as Hlarge.
    - destruct Hshape as (v & -> & Hlen).
      rewrite !decide_False by lia. rewrite decide_True by lia.
      destruct v as [|x v]; [simpl in Hlen; lia|].
      cbn [argmax mbind result_bind mret result_ret].
      eexists. split; [done|].
      pose proof (argmax_from_lt v 0 x 1). simpl in Hlen. lia.
    - destruct Hshape as [q ->].
      destruct (decide (Z.of_nat (length (categories dim)) = 2)).
      + destruct (Qle_bool q (1 # 2)); [exists 0%nat|exists 1%nat];
          (split; [done|lia]).
      + rewrite decide_True by lia. exists 0%nat. done. }
  cbn [mbind result_bind].
  destruct (lookup_lt_is_Some_2 (categories dim) i Hi) as [c Hc].
  rewrite (Enumerate_reverse_at _ c i Hc). cbn [mbind result_bind].
  rewrite Hdeclared; [done|]. by eapply list_elem_of_lookup_2.
Qed.

Lemma encoded_contains_witness :
  TransformedDimension.contains
    {| TransformedDimension.transformer :=
         Compose (OneHotEncode 3)
           (Compose (Enumerate ["red"; "green"; "blue"])
              (Identity (Some categorical)));
       TransformedDimension.original_dimension := colour |}
    (Vec [5; 7; -3]%Q)
  = Ok true.
Proof.
  apply (encoded_contains colour).
  - reflexivity.
  - done.
  - intros c Hc. simpl. by apply bool_decide_eq_true.
  - reflexivity.
  - simpl. by exists [5; 7; -3]%Q.
Defined.

(** ** Shapes *)

Lemma Quantize_shape_sound : shape_sound Quantize.
Proof.
  intros [] p'; simpl; try done; try case_decide; try done;
    by intros [= <-].
Qed.

Lemma Reverse_Quantize_shape_sound : shape_sound (Reverse Quantize).
Proof.
  intros [] p'; simpl; try done; try case_decide; try done;
    by intros [= <-].
Qed.

Lemma Enumerate_shape_sound (categories : list string) :
  shape_sound (Enumerate categories).
Proof.
  intros [] p'; simpl; try done.
  destruct (map_dict categories !! c); [|done]. by intros [= <-].
Qed.

Lemma OneHotEncode_shape_sound (num_cats : Z) :
  shape_sound (OneHotEncode num_cats).
Proof.
  intros [] p'; cbn [transform OneHotEncode_transform infer_target_shape];
    try done.
  - case_decide; [|done].
    destruct (decide (num_cats <= 2)); intros [= <-]; simpl.
    + by rewrite decide_False by lia.
    + rewrite decide_True by lia. unfold one_hot.
      rewrite length_insert, length_replicate. f_equal. lia.
  - destruct (_ && _); [|done].
    destruct (decide (num_cats <= 2)); [|done]. intros [= <-]. simpl.
    by rewrite decide_False by lia.
Qed.

Lemma requirement_step_shape_sound (dim : Dimension)
    (acc acc' : list transformer * option type_name)
    (requirement : option type_name) :
  requirement_step dim acc requirement = Ok acc' ->
  Forall shape_sound acc.1 ->
  Forall shape_sound acc'.1.
Proof.
  destruct acc as [transformers type_]. unfold requirement_step.
  intros Hstep Hsound. cbn [fst] in Hsound.
  assert (forall added,
            Forall shape_sound added ->
            (match last (transformers ++ added) with
             | Some t =>
                 let last_type := target_type t in
                 if decide (last_type = Some invariant)
                 then mret (transformers ++ added, type_)
                 else mret (transformers ++ added, last_type)
             | None => mret (transformers ++ added, type_)
             end : result _) = Ok acc' ->
            Forall shape_sound acc'.1) as Hadded.
  { intros added Hnew. destruct (last (transformers ++ added)) as [t|].
    - cbv zeta. case_decide; intros [= <-]; by apply Forall_app.
    - intros [= <-]. by apply Forall_app. }
  destruct type_ as [[]|], requirement as [[]|];
    cbn [Reverse_init mbind result_bind mret result_ret] in Hstep;
    try done;
    try (rewrite <- (app_nil_r transformers) in Hstep;
         apply (Hadded []); [constructor|exact Hstep]).
  - apply (Hadded [Quantize]); [|exact Hstep].
    repeat constructor. apply Quantize_shape_sound.
  - apply (Hadded [Reverse Quantize]); [|exact Hstep].
    repeat constructor. apply Reverse_Quantize_shape_sound.
  - apply (Hadded [Enumerate (categories dim);
                   OneHotEncode (Z.of_nat (length (categories dim)))]);
      [|exact Hstep].
    repeat constructor;
      [apply Enumerate_shape_sound|apply OneHotEncode_shape_sound].
  - apply (Hadded [Enumerate (categories dim)]); [|exact Hstep].
    repeat constructor. apply Enumerate_shape_sound.
Qed.

Lemma Compose_pop_shape_sound (base : option type_name)
    (reversed : list transformer) :
  Forall shape_sound reversed ->
  forall t, Compose_pop reversed base = Ok t -> shape_sound t.
Proof.
  induction 1 as [|apply rest Happly Hrest IH]; intros t Ht.
  - apply Compose_check_Ok in Ht as ->. by intros p p' [= <-].
  - apply Compose_pop_cons in Ht as (composition & -> & Hcomposition).
    assert (shape_sound composition) as Hsound.
    { destruct rest as [|next rest]; [|by apply IH].
      subst composition. by intros p p' [= <-]. }
    intros p p'. cbn [transform infer_target_shape].
    destruct (transform composition p) as [q|] eqn:Hq;
      cbn [mbind result_bind]; [|done].
    intros Hp'. rewrite <- (Hsound p q Hq). by apply Happly.
Qed.

(** X21: the shape that a wrapped dimension reports is the shape of the
    points it produces: when a dimension wrapped for any requirements
    transforms a point, the image has the shape inferred from the shape
    of the point. *)
Theorem reported_shape_is_sound (requirements : list (option type_name))
    (dim : Dimension) (self : TransformedDimension.t) (p p' : point) :
  wrap_dimension requirements dim = Ok self ->
  TransformedDimension.transform self p = Ok p' ->
  point_shape p' = TransformedDimension_shape self (point_shape p).
Proof.
  unfold wrap_dimension. cbv zeta.
  destruct (for_each _ _ _) as [[transformers type_]|] eqn:Hloop;
    cbn [mbind result_bind]; [|done].
  destruct (Compose_init _ _) as [composed|] eqn:Hcomposed;
    cbn [mbind result_bind]; [|done].
  intros [= <-]. unfold TransformedDimension.transform,
    TransformedDimension_shape. cbn [TransformedDimension.transformer].
  apply (Compose_pop_shape_sound (Some (type dim)) (rev transformers));
    [|done].
  apply Forall_rev.
  apply (for_each_prefix (fun _ acc => Forall shape_sound acc.1))
    in Hloop; [done| |constructor].
  intros done requirement rest acc acc' _ Hacc Hstep.
  by eapply requirement_step_shape_sound.
Qed.

Lemma reported_shape_is_sound_witness :
  point_shape (Vec [0; 1; 0]%Q)
  = TransformedDimension_shape
      {| TransformedDimension.transformer :=
           Compose (OneHotEncode 3)
             (Compose (Enumerate ["red"; "green"; "blue"])
                (Identity (Some categorical)));
         TransformedDimension.original_dimension := colour |}
      (point_shape (Cat "green")).
Proof.
  apply (reported_shape_is_sound [Some real] colour).
  - reflexivity.
  - reflexivity.
Defined.

End TransformerSpec.

(** * Properties of the space builder *)

Module SpaceBuilderSpec.

Import SpaceBuilder LoopSpec.
Import Transformer.

(** ** Ordered dictionaries *)

Lemma setitem_new {V : Type} (key : string) (value : V)
    (odict : list (string * V)) :
  key ∉ odict.*1 -> setitem key value odict = odict ++ [(key, value)].
Proof.
  induction odict as [|[k v] odict IH]; intros Hkey; [done|].
  apply not_elem_of_cons in Hkey as [Hne Hkey]. simpl in Hne.
  cbn [setitem]. rewrite decide_False by done. by rewrite IH.
Qed.

Lemma setitem_keys {V : Type} (key : string) (value : V)
    (odict : list (string * V)) :
  key ∈ odict.*1 -> (setitem key value odict).*1 = odict.*1.
Proof.
  induction odict as [|[k v] odict IH]; intros Hkey.
  - by apply elem_of_nil in Hkey.
  - cbn [setitem]. destruct (decide (k = key)) as [->|Hne]; [done|].
    apply elem_of_cons in Hkey as [Heq|Hkey]; [by subst|].
    cbn. by rewrite IH.
Qed.

(** X22: when the new key is not among the keys, or is the old key
    itself, [replace_key_in_order] renames the old key where it stands:
    the items keep their order and their values, and a dictionary
    without the old key comes back as it was. *)
Theorem replace_key_renames {V : Type} (odict : list (string * V))
    (key_prev key_after : string) :
  NoDup odict.*1 ->
  key_after ∉ odict.*1 \/ key_after = key_prev ->
  replace_key_in_order odict key_prev key_after
  = (fun item => (renamed key_prev key_after item.1, item.2)) <$> odict.
Proof.
  intros Hnodup Hfree. unfold replace_key_in_order.
  assert (forall items tmp : list (string * V),
            NoDup (tmp.*1 ++ (renamed key_prev key_after <$> items.*1)) ->
            foldl
              (fun tmp '(k, v) =>
                 if decide (k = key_prev) then setitem key_after v tmp
                 else setitem k v tmp)
              tmp items
            = tmp ++ ((fun item =>
                         (renamed key_prev key_after item.1, item.2))
                      <$> items)) as Hfold.
  { induction items as [|[k v] items IH]; intros tmp Hfresh.
    - by rewrite app_nil_r.
    - cbn [foldl fmap list_fmap fst snd] in *.
      assert ((if decide (k = key_prev) then setitem key_after v tmp
               else setitem k v tmp)
              = tmp ++ [(renamed key_prev key_after k, v)]) as ->.
      { apply NoDup_app in Hfresh as (_ & Hdisjoint & _).
        assert (renamed key_prev key_after k ∉ tmp.*1) as Hnew.
        { intros Hin. apply (Hdisjoint _ Hin). by left. }
        unfold renamed in *. case_decide; by apply setitem_new. }
      rewrite IH.
      + by rewrite <- app_assoc.
      + rewrite fmap_app, <- app_assoc. done. }
  rewrite Hfold; [done|]. cbn [fmap list_fmap app].
  apply NoDup_fmap_2_strong; [|done].
  intros k k' Hk Hk'. unfold renamed. repeat case_decide; try congruence.
  - intros <-. destruct Hfree as [Hfree|Hfree]; [done|congruence].
  - intros ->. destruct Hfree as [Hfree|Hfree]; [done|congruence].
Qed.

Lemma replace_key_renames_witness :
  replace_key_in_order [("a", 1%nat); ("b", 2%nat); ("c", 3%nat)] "b" "x"
  = [("a", 1%nat); ("x", 2%nat); ("c", 3%nat)].
Proof.
  apply (replace_key_renames [("a", 1%nat); ("b", 2%nat); ("c", 3%nat)]
           "b" "x").
  - apply (bool_decide_unpack
             (NoDup [("a", 1%nat); ("b", 2%nat); ("c", 3%nat)].*1)).
    vm_compute. exact I.
  - left. apply (bool_decide_unpack
                   ("x" ∉ [("a", 1%nat); ("b", 2%nat); ("c", 3%nat)].*1)).
    vm_compute. exact I.
Defined.

Lemma setitem_keys_cases {V : Type} (key : string) (value : V)
    (odict : list (string * V)) :
  (setitem key value odict).*1
  = if decide (key ∈ odict.*1) then odict.*1 else odict.*1 ++ [key].
Proof.
  case_decide.
  - by apply setitem_keys.
  - rewrite setitem_new by done. by rewrite fmap_app.
Qed.

Lemma replace_key_keys {V : Type} (key_prev key_after : string)
    (items : list (string * V)) :
  forall tmp : list (string * V),
    NoDup tmp.*1 ->
    NoDup (foldl
             (fun tmp '(k, v) =>
                if decide (k = key_prev) then setitem key_after v tmp
                else setitem k v tmp)
             tmp items).*1
    /\ forall key,
         key ∈ (foldl
                  (fun tmp '(k, v) =>
                     if decide (k = key_prev) then setitem key_after v tmp
                     else setitem k v tmp)
                  tmp items).*1
         <-> key ∈ tmp.*1 \/ key ∈ renamed key_prev key_after <$> items.*1.
Proof.
  induction items as [|[k v] items IH]; intros tmp Hnodup.
  - split; [done|]. intros key. cbn. rewrite elem_of_nil. tauto.
  - cbn [foldl].
    assert ((if decide (k = key_prev) then setitem key_after v tmp
             else setitem k v tmp)
            = setitem (renamed key_prev key_after k) v tmp) as ->.
    { unfold renamed. by case_decide. }
    destruct (IH (setitem (renamed key_prev key_after k) v tmp))
      as [Hnodup' Hkeys].
    { rewrite setitem_keys_cases. case_decide; [done|].
      apply NoDup_app. split_and!; [done| |apply NoDup_singleton].
      intros x Hx ->%list_elem_of_singleton. done. }
    split; [done|]. intros key. rewrite Hkeys, setitem_keys_cases.
    cbn [fmap list_fmap fst]. rewrite elem_of_cons.
    case_decide as Hin.
    + split; [tauto|]. intros [?|[->|?]]; tauto.
    + rewrite elem_of_app, list_elem_of_singleton. tauto.
Qed.

(** X23: when the new key is already another key of the dictionary,
    [replace_key_in_order] does not leave the rest intact: the item of
    the old key and the item of the new key become one, the result has
    one item less, and its keys are the other keys. *)
Theorem replace_key_collision {V : Type} (odict : list (string * V))
    (key_prev key_after : string) :
  NoDup odict.*1 ->
  key_prev ∈ odict.*1 ->
  key_after ∈ odict.*1 ->
  key_after ≠ key_prev ->
  NoDup (replace_key_in_order odict key_prev key_after).*1
  /\ (forall key,
        key ∈ (replace_key_in_order odict key_prev key_after).*1
        <-> key ∈ odict.*1 /\ key ≠ key_prev)
  /\ length (replace_key_in_order odict key_prev key_after)
     < length odict.
Proof.
  intros Hnodup Hprev Hafter Hne. unfold replace_key_in_order.
  destruct (replace_key_keys key_prev key_after odict [])
    as [Hnodup' Hkeys]; [constructor|].
  assert (forall key,
            key ∈ (foldl
                     (fun (tmp : list (string * V)) '(k, v) =>
                        if decide (k = key_prev)
                        then setitem key_after v tmp
                        else setitem k v tmp)
                     [] odict).*1
            <-> key ∈ odict.*1 /\ key ≠ key_prev) as Hother.
  { intros key. rewrite Hkeys. unfold renamed. split.
    - intros [Hnil|Hin]; [by apply elem_of_nil in Hnil|].
      apply list_elem_of_fmap in Hin as (k & -> & Hk).
      case_decide; [done|]. by subst.
    - intros [Hkey Hkey']. right. apply list_elem_of_fmap. exists key.
      by rewrite decide_False by done. }
  split_and!; [done..|].
  rewrite <- (length_fmap fst), <- (length_fmap fst odict).
  rewrite (Permutation_length
             (l' := filter (fun k => k ≠ key_prev) odict.*1)).
  - apply (length_filter_lt _ _ key_prev); [done|]. by intros Hkey.
  - apply NoDup_Permutation; [done|by apply NoDup_filter|].
    intros key. rewrite Hother, list_elem_of_filter. tauto.
Qed.

Lemma replace_key_collision_witness :
  NoDup (replace_key_in_order [("a", 1%nat); ("b", 2%nat)] "a" "b").*1
  /\ (forall key,
        key ∈ (replace_key_in_order [("a", 1%nat); ("b", 2%nat)]
                 "a" "b").*1
        <-> key ∈ [("a", 1%nat); ("b", 2%nat)].*1 /\ key ≠ "a")
  /\ length (replace_key_in_order [("a", 1%nat); ("b", 2%nat)] "a" "b")
     < length [("a", 1%nat); ("b", 2%nat)].
Proof.
  apply (replace_key_collision [("a", 1%nat); ("b", 2%nat)] "a" "b").
  - apply (bool_decide_unpack (NoDup [("a", 1%nat); ("b", 2%nat)].*1)).
    vm_compute. exact I.
  - by left.
  - right. by left.
  - done.
Defined.

(** ** [SpaceBuilder.build] *)

Lemma built_app (done rest : list (string * string)) :
  built (done ++ rest) = built done ++ built rest.
Proof. apply filter_app. Qed.

(** What [build] has gathered once the items [done] are through: the
    dimensions built for those that are built, one for one. *)
Lemma build_loop
    (dimbuilder_build : string -> string -> result Dimension)
    (configuration : list (string * string)) :
  NoDup configuration.*1 ->
  (forall item, item ∈ built configuration ->
     exists dimension,
       dimbuilder_build item.1 (_remove_marker item.2 "+") = Ok dimension
       /\ name dimension = item.1) ->
  exists space,
    build dimbuilder_build configuration = Ok space
    /\ name <$> space = (built configuration).*1
    /\ Forall2
         (fun item dimension =>
            dimbuilder_build item.1 (_remove_marker item.2 "+")
            = Ok dimension)
         (built configuration) space.
Proof.
  intros Hnodup Hbuilder. unfold build.
  apply (for_each_steps
           (fun done space =>
              name <$> space = (built done).*1
              /\ Forall2
                   (fun item dimension =>
                      dimbuilder_build item.1 (_remove_marker item.2 "+")
                      = Ok dimension)
                   (built done) space) _ configuration);
    [|by split; [|constructor]].
  intros done [namespace expression] rest space Hsplit [Hnames Hdone].
  rewrite built_app. unfold built at 2 4.
  destruct (_should_not_be_built expression) eqn:Hskip.
  - exists space. split; [done|].
    rewrite filter_cons_False by (cbn; congruence).
    by rewrite filter_nil, app_nil_r.
  - rewrite filter_cons_True by done. rewrite filter_nil. cbv zeta.
    destruct (Hbuilder (namespace, expression))
      as (dimension & Hbuilt & Hname).
    { rewrite Hsplit, built_app. apply elem_of_app. right.
      unfold built. rewrite filter_cons_True by done. by left. }
    cbn [fst snd] in Hbuilt, Hname. rewrite Hbuilt.
    cbn [mbind result_bind]. unfold SpaceBuilder.register.
    rewrite decide_False.
    + eexists. split; [done|]. split.
      * rewrite !fmap_app, Hnames. cbn. by rewrite Hname.
      * apply Forall2_app; [done|]. by repeat constructor.
    + rewrite Hnames, Hname. intros Hin.
      rewrite Hsplit, fmap_app in Hnodup.
      apply NoDup_app in Hnodup as (_ & Hdisjoint & _).
      apply (Hdisjoint namespace); [|by left].
      apply list_elem_of_fmap in Hin as (item & -> & Hitem).
      apply list_elem_of_filter in Hitem as [_ Hitem].
      apply list_elem_of_fmap. by exists item.
Qed.

(** X24: when the keys of a configuration differ and the dimension
    builder returns, for every expression that starts with neither [-]
    nor [>], a dimension named by its key, [build] returns and no name
    is ever in conflict.  The space holds exactly the dimensions built
    for those expressions, each with one leading [+] taken off, and
    nothing for the expressions that are skipped; the order in which
    the space lists them is the space's own. *)
Theorem build_registers
    (dimbuilder_build : string -> string -> result Dimension)
    (configuration : list (string * string)) :
  NoDup configuration.*1 ->
  (forall item, item ∈ built configuration ->
     exists dimension,
       dimbuilder_build item.1 (_remove_marker item.2 "+") = Ok dimension
       /\ name dimension = item.1) ->
  exists space,
    build dimbuilder_build configuration = Ok space
    /\ name <$> space ≡ₚ (built configuration).*1
    /\ (forall dimension,
          dimension ∈ space
          <-> exists item,
                item ∈ built configuration
                /\ dimbuilder_build item.1 (_remove_marker item.2 "+")
                   = Ok dimension).
Proof.
  intros Hnodup Hbuilder.
  destruct (build_loop dimbuilder_build configuration Hnodup Hbuilder)
    as (space & Hbuild & Hnames & Hall).
  exists space. split_and!; [done|by rewrite Hnames|].
  intros dimension. split.
  - intros Hin. apply list_elem_of_lookup in Hin as [i Hi].
    destruct (Forall2_lookup_r _ _ _ _ _ Hall Hi) as (item & Hitem & ?).
    exists item. split; [|done]. by eapply list_elem_of_lookup_2.
  - intros (item & Hitem & Hbuilt).
    apply list_elem_of_lookup in Hitem as [i Hi].
    destruct (Forall2_lookup_l _ _ _ _ _ Hall Hi) as (dim & Hdim & ?).
    assert (dim = dimension) as <- by congruence.
    by eapply list_elem_of_lookup_2.
Qed.

Lemma build_registers_witness :
  exists space,
    build (fun namespace _ =>
             Ok {| name := namespace; type := real; categories := [];
                   interval := fun _ => Ok (Real 0, Real 1);
                   contains := fun _ => true |})
      [("lr", "+uniform(0, 1)"); ("epochs", "-fidelity()");
       ("momentum", "uniform(0, 1)")]
    = Ok space
    /\ name <$> space ≡ₚ ["lr"; "momentum"].
Proof.
  destruct (build_registers
              (fun namespace _ =>
                 Ok {| name := namespace; type := real; categories := [];
                       interval := fun _ => Ok (Real 0, Real 1);
                       contains := fun _ => true |})
              [("lr", "+uniform(0, 1)"); ("epochs", "-fidelity()");
               ("momentum", "uniform(0, 1)")])
    as (space & Hbuild & Hnames & _).
  - apply (bool_decide_unpack
             (NoDup [("lr", "+uniform(0, 1)"); ("epochs", "-fidelity()");
                     ("momentum", "uniform(0, 1)")].*1)).
    vm_compute. exact I.
  - intros item _. by eexists.
  - by exists space.
Defined.

End SpaceBuilderSpec.
